(** * Intrinsics PDF Exporter: whitespace and contrast normalisation

    A shallow embedding of [scripts/html-normalizer.js] and
    [scripts/style-processor.js], followed by the properties of the two
    normalisation passes.

    Conventions of the embedding.
    - A JavaScript string is the list of its UTF-16 code units.
    - A DOM node is addressed by the list of child indices leading to it
      from the root of the document (its path); an in-place mutation of a
      node is an update of the document at that path.
    - The document is the tree below the element handed to a pass.  Where
      the passes are called, that element is the render container, which
      declares its own colour and its own white background, so no style
      above it is ever consulted.
    - A JavaScript number that results from colour arithmetic is a real
      number, or NaN (written [None]); integers are exact. *)

From Stdlib Require Import List Bool Arith NArith ZArith Lia String Ascii.
From Stdlib Require Decimal DecimalPos DecimalN.
From Stdlib Require Import Reals Lra.
Import ListNotations.

(* ================================================================== *)
(** * JavaScript strings *)

Module JS.

Definition jsstring := list N.

(** Code units of an ASCII literal. *)
Definition str (s : string) : jsstring :=
  map N_of_ascii (list_ascii_of_string s).

Definition eqb (a b : jsstring) : bool :=
  if list_eq_dec N.eq_dec a b then true else false.

(** The class [\s] of a regular expression, which is also the set of
    characters removed by [String.prototype.trim]: WhiteSpace and
    LineTerminator of the language definition. *)
Definition isWhiteSpace (c : N) : bool :=
  ((9 <=? c) && (c <=? 13) || (c =? 32) || (c =? 160) || (c =? 5760)
   || (8192 <=? c) && (c <=? 8202) || (c =? 8232) || (c =? 8233)
   || (c =? 8239) || (c =? 8287) || (c =? 12288) || (c =? 65279))%N.

(** [/^\s/] *)
Definition startsWithSpace (s : jsstring) : bool :=
  match s with
  | c :: _ => isWhiteSpace c
  | [] => false
  end.

(** [/\s$/] *)
Definition endsWithSpace (s : jsstring) : bool :=
  startsWithSpace (rev s).

Fixpoint trimStart (s : jsstring) : jsstring :=
  match s with
  | c :: r => if isWhiteSpace c then trimStart r else s
  | [] => []
  end.

Definition trim (s : jsstring) : jsstring :=
  rev (trimStart (rev (trimStart s))).

Definition isEmpty (s : jsstring) : bool :=
  match s with [] => true | _ => false end.

(** The lower case of one character where it is one character and the
    argument or the result is ASCII: the letters [A] to [Z], and the
    Kelvin sign U+212A, which the language lowers to [k]. *)
Definition lowerUnit (c : N) : N :=
  (if (65 <=? c) && (c <=? 90) then c + 32
   else if c =? 8490 then 107
   else c)%N.

(** [String.prototype.toLowerCase].  The code compares the result with
    ASCII names and applies it to ASCII strings.  The characters outside
    ASCII whose lower case has an ASCII character in it are the Kelvin
    sign, lowered to [k], and the capital I with dot above U+0130,
    lowered to [i] followed by the combining dot U+0307.  Every other
    character outside ASCII is lowered by the language to characters
    outside ASCII and is left in place here, so that the result equals a
    given ASCII string exactly when the language's does. *)
Definition toLowerCase (s : jsstring) : jsstring :=
  flat_map (fun c => if (c =? 304)%N then [105%N; 775%N] else [lowerUnit c])
           s.

(** [Array.prototype.includes] on an array of strings. *)
Definition includes (l : list jsstring) (s : jsstring) : bool :=
  existsb (eqb s) l.

Definition space : N := 32%N.

Fixpoint unitsOfUint (d : Decimal.uint) : jsstring :=
  match d with
  | Decimal.Nil => []
  | Decimal.D0 u => 48%N :: unitsOfUint u
  | Decimal.D1 u => 49%N :: unitsOfUint u
  | Decimal.D2 u => 50%N :: unitsOfUint u
  | Decimal.D3 u => 51%N :: unitsOfUint u
  | Decimal.D4 u => 52%N :: unitsOfUint u
  | Decimal.D5 u => 53%N :: unitsOfUint u
  | Decimal.D6 u => 54%N :: unitsOfUint u
  | Decimal.D7 u => 55%N :: unitsOfUint u
  | Decimal.D8 u => 56%N :: unitsOfUint u
  | Decimal.D9 u => 57%N :: unitsOfUint u
  end.

(** The decimal numeral of a natural number, as [String(n)] writes it. *)
Definition decimal (n : N) : jsstring := unitsOfUint (N.to_uint n).

End JS.

Import JS.

(* ================================================================== *)
(** * The document tree *)

Module Dom.

(** The inline style declarations the two passes read or write. *)
Record Style := mkStyle {
  color : option jsstring;
  backgroundColor : option jsstring;
  visibility : option jsstring;
  opacity : option jsstring
}.

Definition noStyle : Style := mkStyle None None None None.

(** [Comment] stands for every node that is neither a text node nor an
    element. *)
Unset Elimination Schemes.
Inductive Node :=
| Text (textContent : jsstring)
| Element (tagName : jsstring) (style : Style) (childNodes : list Node)
| Comment (data : jsstring).
Set Elimination Schemes.

(** Structural induction that reaches through the child lists. *)
Section Induction.
Variable P : Node -> Prop.
Hypothesis onText : forall s, P (Text s).
Hypothesis onElement : forall t st cs, Forall P cs -> P (Element t st cs).
Hypothesis onComment : forall d, P (Comment d).

Fixpoint Node_ind (n : Node) : P n :=
  match n with
  | Text s => onText s
  | Element t st cs =>
      onElement t st cs
        ((fix all (l : list Node) : Forall P l :=
            match l with
            | [] => Forall_nil P
            | c :: r => Forall_cons c (Node_ind c) (all r)
            end) cs)
  | Comment d => onComment d
  end.
End Induction.

Definition path := list nat.

Fixpoint nodeAt (n : Node) (p : path) : option Node :=
  match p with
  | [] => Some n
  | i :: q =>
      match n with
      | Element _ _ cs =>
          match nth_error cs i with
          | Some c => nodeAt c q
          | None => None
          end
      | _ => None
      end
  end.

(** The child list that holds the node at [p], with the node's index in
    it; [None] for the root and for paths that lead nowhere. *)
Fixpoint siblings (n : Node) (p : path) : option (list Node * nat) :=
  match p with
  | [] => None
  | i :: q =>
      match n with
      | Element _ _ cs =>
          match q with
          | [] => Some (cs, i)
          | _ :: _ =>
              match nth_error cs i with
              | Some c => siblings c q
              | None => None
              end
          end
      | _ => None
      end
  end.

Definition previousSibling (root : Node) (p : path) : option Node :=
  match siblings root p with
  | Some (cs, S j) => nth_error cs j
  | _ => None
  end.

Definition nextSibling (root : Node) (p : path) : option Node :=
  match siblings root p with
  | Some (cs, i) => nth_error cs (S i)
  | None => None
  end.

Fixpoint mapNth {A} (f : A -> A) (i : nat) (l : list A) : list A :=
  match l with
  | [] => []
  | x :: r =>
      match i with
      | 0 => f x :: r
      | S j => x :: mapNth f j r
      end
  end.

(** In-place mutation of the node at [p]. *)
Fixpoint updateAt (f : Node -> Node) (n : Node) (p : path) : Node :=
  match p with
  | [] => f n
  | i :: q =>
      match n with
      | Element t st cs => Element t st (mapNth (fun c => updateAt f c q) i cs)
      | _ => n
      end
  end.

(** [createTreeWalker(root, SHOW_TEXT)]: the text nodes below [root], in
    document order.  [nextNode] never yields the root itself. *)
Fixpoint textNodes (root : Node) : list path :=
  match root with
  | Element _ _ cs =>
      (fix kids (i : nat) (l : list Node) : list path :=
         match l with
         | [] => []
         | c :: r =>
             match c with
             | Text _ => [[i]]
             | _ => map (cons i) (textNodes c)
             end ++ kids (S i) r
         end) 0 cs
  | _ => []
  end.

(** [createTreeWalker(root, SHOW_ELEMENT)]: the elements below [root],
    in document order, a parent before its children. *)
Fixpoint elementNodes (root : Node) : list path :=
  match root with
  | Element _ _ cs =>
      (fix kids (i : nat) (l : list Node) : list path :=
         match l with
         | [] => []
         | c :: r =>
             match c with
             | Element _ _ _ => [i] :: map (cons i) (elementNodes c)
             | _ => []
             end ++ kids (S i) r
         end) 0 cs
  | _ => []
  end.

Definition getTextContent (root : Node) (p : path) : jsstring :=
  match nodeAt root p with
  | Some (Text s) => s
  | _ => []
  end.

Definition setTextContent (root : Node) (p : path) (s : jsstring) : Node :=
  updateAt (fun n => match n with Text _ => Text s | _ => n end) root p.

End Dom.

Import Dom.

(* ================================================================== *)
(** * scripts/html-normalizer.js *)

Module HtmlNormalizer.

Definition blockElements : list jsstring :=
  map str ["div"; "p"; "h1"; "h2"; "h3"; "h4"; "h5"; "h6"; "ul"; "ol";
           "li"; "blockquote"; "pre"; "hr"; "table"; "tr"; "td"; "th"]%string.

Definition needsLeadingSpace (root : Node) (node : path) : bool :=
  match previousSibling root node with
  | None => false
  | Some (Element tagName _ _) =>
      if includes blockElements (toLowerCase tagName) then false else true
  | Some (Text s) => negb (endsWithSpace s)
  | Some (Comment _) => false
  end.

Definition needsTrailingSpace (root : Node) (node : path) : bool :=
  match nextSibling root node with
  | None => false
  | Some (Element tagName _ _) =>
      if includes blockElements (toLowerCase tagName) then false else true
  | Some (Text s) => negb (startsWithSpace s)
  | Some (Comment _) => false
  end.

Inductive position := leading | trailing.

(** One iteration of the collecting loop, for the text node at [node]. *)
Definition collect (root : Node) (node : path) : list (path * position) :=
  let s := getTextContent root node in
  if isEmpty s || isEmpty (trim s) then []
  else (if needsLeadingSpace root node then [(node, leading)] else [])
    ++ (if needsTrailingSpace root node then [(node, trailing)] else []).

Definition nodesToFix (root : Node) : list (path * position) :=
  flat_map (collect root) (textNodes root).

(** One iteration of the [forEach] that applies the fixes. *)
Definition applyFix (root : Node) (fx : path * position) : Node :=
  let (node, pos) := fx in
  let s := getTextContent root node in
  match pos with
  | leading =>
      if negb (startsWithSpace s) then setTextContent root node (space :: s)
      else root
  | trailing =>
      if negb (endsWithSpace s) then setTextContent root node (s ++ [space])
      else root
  end.

Definition normalizeWhitespace (element : Node) : Node :=
  fold_left applyFix (nodesToFix element) element.

End HtmlNormalizer.

Import HtmlNormalizer.

(* ================================================================== *)
(** * scripts/config.js *)

Module CONFIG.
Module COLOR_THRESHOLDS.
Definition lightThreshold : R := 0.5.
Definition contrastRatio : R := 4.5.
End COLOR_THRESHOLDS.
End CONFIG.

(* ================================================================== *)
(** * scripts/style-processor.js *)

Module StyleProcessor.

(** A colour is the array [[r, g, b]] that [parseColor] returns; each
    entry is the result of a [parseInt], an integer or NaN ([None]). *)
Definition Color := (option Z * option Z * option Z)%type.

(** ** String primitives used by [parseColor] *)

Definition digitValue (c : N) : option N :=
  (if (48 <=? c) && (c <=? 57) then Some (c - 48)
   else if (97 <=? c) && (c <=? 122) then Some (c - 87)
   else if (65 <=? c) && (c <=? 90) then Some (c - 55)
   else None)%N.

Definition isRadixDigit (radix c : N) : bool :=
  match digitValue c with
  | Some v => (v <? radix)%N
  | None => false
  end.

Fixpoint span (f : N -> bool) (s : jsstring) : jsstring * jsstring :=
  match s with
  | c :: r =>
      if f c then let (a, b) := span f r in (c :: a, b) else ([], s)
  | [] => ([], [])
  end.

Definition digitsValue (radix : N) (ds : jsstring) : N :=
  fold_left
    (fun acc c => match digitValue c with
                  | Some v => acc * radix + v
                  | None => acc
                  end)%N ds 0%N.

(** The double that a natural number is read as: itself below 2^53, else
    the nearest number with a significand of 53 bits, the even one of two
    that are equally near.  From 2^1024 on the language has Infinity
    instead, which a numeral of fewer than 309 digits does not reach and
    which has no counterpart in [N]. *)
Definition toDouble (n : N) : N :=
  if (n <? 9007199254740992)%N then n
  else
    let e := (N.size n - 53)%N in
    let q := N.shiftr n e in
    let r := (n - N.shiftl q e)%N in
    let half := N.shiftl 1 (e - 1) in
    let q' := if (half <? r)%N || ((r =? half)%N && N.odd q)
              then (q + 1)%N else q in
    N.shiftl q' e.

(** [parseInt(string, radix)], for an absent radix or radix 16: leading
    white space and one sign are skipped, a [0x] prefix selects base 16,
    and the longest prefix of digits is read; no digit at all is NaN.
    The result is a Number, so the value of the digits is rounded to a
    double. *)
Definition parseInt (s : jsstring) (radix : option N) : option Z :=
  let s1 := trimStart s in
  let (sign, s2) :=
    match s1 with
    | c :: r =>
        if (c =? 45)%N then ((-1)%Z, r)
        else if (c =? 43)%N then (1%Z, r)
        else (1%Z, s1)
    | [] => (1%Z, s1)
    end in
  let base := match radix with Some r => r | None => 10%N end in
  let (base, s3) :=
    match s2 with
    | z :: x :: r =>
        if (z =? 48)%N && ((x =? 120) || (x =? 88))%N
           && match radix with Some r => (r =? 16)%N | None => true end
        then (16%N, r) else (base, s2)
    | _ => (base, s2)
    end in
  match fst (span (isRadixDigit base) s3) with
  | [] => None
  | ds => Some (sign * Z.of_N (toDouble (digitsValue base ds)))%Z
  end.

Definition isDigit (c : N) : bool := ((48 <=? c) && (c <=? 57))%N.

Fixpoint stripPrefix (lit s : jsstring) : option jsstring :=
  match lit, s with
  | [], _ => Some s
  | a :: lit', b :: s' => if (a =? b)%N then stripPrefix lit' s' else None
  | _ :: _, [] => None
  end.

(** A capture group [(\d+)]: the longest non-empty run of digits. *)
Definition digitGroup (s : jsstring) : option (jsstring * jsstring) :=
  match span isDigit s with
  | ([], _) => None
  | (d, r) => Some (d, r)
  end.

(** [\((\d+),\s*(\d+),\s*(\d+)] at the head of [s].  Each greedy run is
    followed by a character outside its class, so a shorter run can
    never succeed where the longest one fails. *)
Definition matchChannels (s : jsstring)
  : option (jsstring * jsstring * jsstring) :=
  match s with
  | 40%N :: s1 =>
      match digitGroup s1 with
      | Some (g1, 44%N :: s2) =>
          match digitGroup (trimStart s2) with
          | Some (g2, 44%N :: s3) =>
              match digitGroup (trimStart s3) with
              | Some (g3, _) => Some (g1, g2, g3)
              | None => None
              end
          | _ => None
          end
      | _ => None
      end
  | _ => None
  end.

(** [rgba?] followed by the channels, at the head of [s]; the optional
    [a] is tried first and given back when the rest does not match. *)
Definition matchRgbHere (s : jsstring)
  : option (jsstring * jsstring * jsstring) :=
  match stripPrefix (str "rgb") s with
  | Some r =>
      match r with
      | 97%N :: r' =>
          match matchChannels r' with
          | Some m => Some m
          | None => matchChannels r
          end
      | _ => matchChannels r
      end
  | None => None
  end.

(** [color.match(/rgba?\((\d+),\s*(\d+),\s*(\d+)/)]: the leftmost match. *)
Fixpoint rgbMatch (s : jsstring) : option (jsstring * jsstring * jsstring) :=
  match matchRgbHere s with
  | Some m => Some m
  | None =>
      match s with
      | [] => None
      | _ :: r => rgbMatch r
      end
  end.

Definition startsWith (s lit : jsstring) : bool :=
  match stripPrefix lit s with Some _ => true | None => false end.

(** [s.replace(c, '')] for a one-character pattern: the first occurrence
    is removed. *)
Fixpoint removeFirst (c : N) (s : jsstring) : jsstring :=
  match s with
  | [] => []
  | x :: r => if (x =? c)%N then r else x :: removeFirst c r
  end.

Definition substr (s : jsstring) (start len : nat) : jsstring :=
  firstn len (skipn start s).

Definition white : Color := (Some 255%Z, Some 255%Z, Some 255%Z).

(** ** Numbers *)

Definition number := option R.

Definition gt (a b : number) : bool :=
  match a, b with
  | Some x, Some y => if Rlt_dec y x then true else false
  | _, _ => false
  end.

Definition lt (a b : number) : bool := gt b a.

Section Platform.

(** The colour-resolution collaborator: lines 358-365 of the source
    hand every other colour form to the styling engine (a temporary
    element, [getComputedStyle], and a parse of the answer); its result
    is taken here as the triple it resolves to. *)
Variable resolveNamedColor : jsstring -> Color.

Definition parseColor (color : jsstring) : Color :=
  match rgbMatch color with
  | Some (g1, g2, g3) =>
      (parseInt g1 None, parseInt g2 None, parseInt g3 None)
  | None =>
      if startsWith color (str "#") then
        let hex := removeFirst 35%N color in
        if Nat.eqb (List.length hex) 3 then
          (parseInt (substr hex 0 1 ++ substr hex 0 1) (Some 16%N),
           parseInt (substr hex 1 1 ++ substr hex 1 1) (Some 16%N),
           parseInt (substr hex 2 1 ++ substr hex 2 1) (Some 16%N))
        else
          (parseInt (substr hex 0 2) (Some 16%N),
           parseInt (substr hex 2 2) (Some 16%N),
           parseInt (substr hex 4 2) (Some 16%N))
      else if eqb color (str "transparent")
              || eqb color (str "rgba(0, 0, 0, 0)") then white
      else resolveNamedColor color
  end.

(** The callback of [rgb.map] in [calculateLuminance]. *)
Definition linearize (val : R) : R :=
  let val := (val / 255)%R in
  if Rle_dec val 0.03928 then (val / 12.92)%R
  else Rpower ((val + 0.055) / 1.055) 2.4.

Definition calculateLuminance (rgb : Color) : number :=
  match rgb with
  | (Some r, Some g, Some b) =>
      Some (0.2126 * linearize (IZR r) + 0.7152 * linearize (IZR g)
            + 0.0722 * linearize (IZR b))%R
  | _ => None
  end.

Definition calculateContrastRatio (lum1 lum2 : number) : number :=
  match lum1, lum2 with
  | Some a, Some b => Some ((Rmax a b + 0.05) / (Rmin a b + 0.05))%R
  | _, _ => None
  end.

Definition isLightOnDark (textColor backgroundColor : jsstring) : bool :=
  let textLuminance := calculateLuminance (parseColor textColor) in
  let bgLuminance := calculateLuminance (parseColor backgroundColor) in
  gt textLuminance bgLuminance.

Definition invertColor (color : jsstring) : jsstring :=
  let luminance := calculateLuminance (parseColor color) in
  if gt luminance (Some CONFIG.COLOR_THRESHOLDS.lightThreshold)
  then str "#000000" else color.

(** ** Computed style *)

Record Computed := mkComputed {
  c_color : jsstring;
  c_backgroundColor : jsstring;
  c_visibility : jsstring;
  c_opacity : jsstring
}.

(** Modelled from the spec: the defaults of the style-resolution
    collaborator, black text on a fully transparent background. *)
Definition initialStyle : Computed :=
  mkComputed (str "rgb(0, 0, 0)") (str "rgba(0, 0, 0, 0)")
             (str "visible") (str "1").

Definition orElse (o : option jsstring) (d : jsstring) : jsstring :=
  match o with Some v => v | None => d end.

(** Modelled from the spec: the style-resolution collaborator is the
    platform's and not part of the repository.  Text colour and visibility
    are the element's own declaration, else inherited from the parent;
    the background and the opacity are the element's own declaration, else
    the initial value. *)
Definition cascade (parent : Computed) (own : Style) : Computed :=
  mkComputed (orElse (color own) (c_color parent))
             (orElse (backgroundColor own) (c_backgroundColor initialStyle))
             (orElse (visibility own) (c_visibility parent))
             (orElse (opacity own) (c_opacity initialStyle)).

(** Modelled from the spec: the computed style of the element at [p],
    resolved from the root downwards. *)
Fixpoint computedFrom (parent : Computed) (n : Node) (p : path) : Computed :=
  match n with
  | Element _ st cs =>
      let here := cascade parent st in
      match p with
      | [] => here
      | i :: q =>
          match nth_error cs i with
          | Some c => computedFrom here c q
          | None => initialStyle
          end
      end
  | _ => initialStyle
  end.

(** Modelled from the spec: [window.getComputedStyle] is the platform's
    style-resolution collaborator and is not part of the repository.
    An element's text colour is its own declared colour, else the one
    inherited from the nearest ancestor that declares one, else black;
    its background is its own declaration, else fully transparent.
    A value is reported as it was declared. *)
Definition getComputedStyle (doc : Node) (element : path) : Computed :=
  computedFrom initialStyle doc element.

Definition parentElement (element : path) : option path :=
  match element with
  | [] => None
  | _ :: _ => Some (removelast element)
  end.

(** The test [bgColor && bgColor !== 'transparent' &&
    bgColor !== 'rgba(0, 0, 0, 0)']. *)
Definition isOpaqueDeclaration (bgColor : jsstring) : bool :=
  negb (isEmpty bgColor) && negb (eqb bgColor (str "transparent"))
  && negb (eqb bgColor (str "rgba(0, 0, 0, 0)")).

Definition maxDepth : nat := 10.

(** The [while] loop of [getEffectiveBackgroundColor]; [remaining] is
    [maxDepth - depth]. *)
Fixpoint walkUp (doc : Node) (current : option path) (remaining : nat)
  : jsstring :=
  match remaining with
  | 0 => str "#ffffff"
  | S k =>
      match current with
      | None => str "#ffffff"
      | Some cur =>
          let bgColor := c_backgroundColor (getComputedStyle doc cur) in
          if isOpaqueDeclaration bgColor then bgColor
          else walkUp doc (parentElement cur) k
      end
  end.

Definition getEffectiveBackgroundColor (doc : Node) (element : path)
  : jsstring :=
  walkUp doc (Some element) maxDepth.

(** ** Style mutation *)

Definition setStyle (f : Style -> Style) (doc : Node) (element : path)
  : Node :=
  updateAt (fun n => match n with
                     | Element t st cs => Element t (f st) cs
                     | _ => n
                     end) doc element.

Definition withColor (v : jsstring) (st : Style) : Style :=
  mkStyle (Some v) (backgroundColor st) (visibility st) (opacity st).
Definition withBackgroundColor (v : jsstring) (st : Style) : Style :=
  mkStyle (color st) (Some v) (visibility st) (opacity st).
Definition withVisibility (v : jsstring) (st : Style) : Style :=
  mkStyle (color st) (backgroundColor st) (Some v) (opacity st).
Definition withOpacity (v : jsstring) (st : Style) : Style :=
  mkStyle (color st) (backgroundColor st) (visibility st) (Some v).

(** ** invertColorsForPDF *)

Record Inversion := mkInversion {
  element : path;
  originalColor : jsstring;
  originalBackground : jsstring
}.

(** One iteration of the collecting loop. *)
Definition collectInversion (doc : Node) (node : path) : list Inversion :=
  let computed := getComputedStyle doc node in
  let textColor := c_color computed in
  let bgColor := getEffectiveBackgroundColor doc node in
  if isLightOnDark textColor bgColor
  then [mkInversion node textColor (c_backgroundColor computed)]
  else [].

Definition elementsToInvert (doc : Node) : list Inversion :=
  flat_map (collectInversion doc) (elementNodes doc).

(** One iteration of the [forEach] that applies the inversions. *)
Definition applyInversion (doc : Node) (inv : Inversion) : Node :=
  let invertedColor := invertColor (originalColor inv) in
  let doc := setStyle (withColor invertedColor) doc (element inv) in
  let bgColor := c_backgroundColor (getComputedStyle doc (element inv)) in
  if isOpaqueDeclaration bgColor then
    let bgLuminance := calculateLuminance (parseColor bgColor) in
    if lt bgLuminance (Some CONFIG.COLOR_THRESHOLDS.lightThreshold)
    then setStyle (withBackgroundColor (str "transparent")) doc (element inv)
    else doc
  else doc.

(** The pass returns nothing; the second component is the number it
    writes to the console. *)
Definition invertColorsForPDF (doc : Node) : Node * nat :=
  let l := elementsToInvert doc in
  (fold_left applyInversion l doc, List.length l).

(** ** ensureTextVisibility *)

Definition makeVisible (doc : Node) (node : path) : Node :=
  let computed := getComputedStyle doc node in
  let doc :=
    if eqb (c_visibility computed) (str "hidden")
    then setStyle (withVisibility (str "visible")) doc node else doc in
  if eqb (c_opacity computed) (str "0")
  then setStyle (withOpacity (str "1")) doc node else doc.

(** The walker is live, but the loop only writes styles, which leaves the
    list of elements as it is. *)
Definition ensureTextVisibility (doc : Node) : Node :=
  fold_left makeVisible (elementNodes doc) doc.

(** ** fixContrastIssues *)

Definition contrastOf (doc : Node) (node : path) : number :=
  let computed := getComputedStyle doc node in
  let textColor := c_color computed in
  let bgColor := getEffectiveBackgroundColor doc node in
  let textLum := calculateLuminance (parseColor textColor) in
  let bgLum := calculateLuminance (parseColor bgColor) in
  calculateContrastRatio textLum bgLum.

Definition fixContrast (doc : Node) (node : path) : Node :=
  if lt (contrastOf doc node) (Some CONFIG.COLOR_THRESHOLDS.contrastRatio)
  then setStyle (withColor (str "#000000")) doc node
  else doc.

(** Each iteration reads the styles as the earlier iterations left
    them. *)
Definition fixContrastIssues (doc : Node) : Node :=
  fold_left fixContrast (elementNodes doc) doc.

(** ** processStylesForPDF *)

Definition processStylesForPDF (doc : Node) : Node :=
  let doc := fst (invertColorsForPDF doc) in
  let doc := ensureTextVisibility doc in
  fixContrastIssues doc.

End Platform.

End StyleProcessor.

Import StyleProcessor.

(* ================================================================== *)
(** * The whitespace pass as a function of the tree

    [normalizeWhitespace] is written as a loop over node handles followed
    by a loop over recorded fixes.  The functions below describe the same
    result by recursion on the tree; [normalizeWhitespace_norm] proves that
    they agree. *)

Module Structural.

(** The answer of [needsLeadingSpace], from the previous sibling. *)
Definition leadOf (prev : option Node) : bool :=
  match prev with
  | None => false
  | Some (Element tagName _ _) =>
      if includes blockElements (toLowerCase tagName) then false else true
  | Some (Text s) => negb (endsWithSpace s)
  | Some (Comment _) => false
  end.

(** The answer of [needsTrailingSpace], from the next sibling. *)
Definition trailOf (next : option Node) : bool :=
  match next with
  | None => false
  | Some (Element tagName _ _) =>
      if includes blockElements (toLowerCase tagName) then false else true
  | Some (Text s) => negb (startsWithSpace s)
  | Some (Comment _) => false
  end.

Definition blank (s : jsstring) : bool := isEmpty s || isEmpty (trim s).

Definition addLeading (s : jsstring) : jsstring :=
  if negb (startsWithSpace s) then space :: s else s.

Definition addTrailing (s : jsstring) : jsstring :=
  if negb (endsWithSpace s) then s ++ [space] else s.

Definition fixText (lead trail : bool) (s : jsstring) : jsstring :=
  let s1 := if lead then addLeading s else s in
  if trail then addTrailing s1 else s1.

Definition normText (prev next : option Node) (s : jsstring) : jsstring :=
  if blank s then s else fixText (leadOf prev) (trailOf next) s.

Fixpoint norm (prev next : option Node) (n : Node) : Node :=
  match n with
  | Text s => Text (normText prev next s)
  | Element t st cs =>
      Element t st
        ((fix kids (prev : option Node) (l : list Node) : list Node :=
            match l with
            | [] => []
            | c :: r => norm prev (hd_error r) c :: kids (Some c) r
            end) None cs)
  | Comment d => Comment d
  end.

Fixpoint normKids (prev : option Node) (l : list Node) : list Node :=
  match l with
  | [] => []
  | c :: r => norm prev (hd_error r) c :: normKids (Some c) r
  end.

Fixpoint textKids (i : nat) (l : list Node) : list path :=
  match l with
  | [] => []
  | c :: r =>
      match c with
      | Text _ => [[i]]
      | _ => map (cons i) (textNodes c)
      end ++ textKids (S i) r
  end.

Definition under (i : nat) (fx : path * position) : path * position :=
  (i :: fst fx, snd fx).

End Structural.

Import Structural.

(* ================================================================== *)
(** * Vocabulary of the properties *)

(** [after o o'] : [o'] is the sibling [o] as the pass leaves it. *)
Inductive after : option Node -> option Node -> Prop :=
| after_none : after None None
| after_some a b x : after (Some x) (Some (norm a b x)).

(** A numeral: a non-empty run of decimal digits. *)
Definition numeral (d : jsstring) : Prop :=
  d <> [] /\ Forall (fun c => isDigit c = true) d.

(** The bases of the power for the channel values 100 and 120. *)
Definition base100 : R := ((100 / 255 + 0.055) / 1.055)%R.
Definition base120 : R := ((120 / 255 + 0.055) / 1.055)%R.

(** The inline style of the element at [p]. *)
Definition styleAt (doc : Node) (p : path) : option Style :=
  match nodeAt doc p with
  | Some (Element _ st _) => Some st
  | _ => None
  end.

Definition restyle (f : Style -> Style) (n : Node) : Node :=
  match n with
  | Element t st cs => Element t (f st) cs
  | _ => n
  end.

Fixpoint elementKids (i : nat) (l : list Node) : list path :=
  match l with
  | [] => []
  | c :: r =>
      match c with
      | Element _ _ _ => [i] :: map (cons i) (elementNodes c)
      | _ => []
      end ++ elementKids (S i) r
  end.

Definition isElement (n : Node) : bool :=
  match n with Element _ _ _ => true | _ => false end.

(** The colours of the scenarios. *)
Definition yellow : jsstring := str "rgb(255, 255, 0)".
Definition black : jsstring := str "rgb(0, 0, 0)".
Definition gray100 : jsstring := str "rgb(100, 100, 100)".
Definition gray120 : jsstring := str "rgb(120, 120, 120)".
Definition hexBlack : jsstring := str "#000000".
Definition transparent : jsstring := str "transparent".

(** The element at [p] carries these two declarations. *)
Definition HasColors (doc : Node) (p : path) (c b : option jsstring) : Prop :=
  exists st, styleAt doc p = Some st /\ color st = c /\ backgroundColor st = b.

Definition keepsColors (g : Style -> Style) : Prop :=
  forall st, color (g st) = color st
             /\ backgroundColor (g st) = backgroundColor st.

(** The [k]-th ancestor of the element at [p]; the element itself for
    [k = 0]. *)
Definition ancestor (k : nat) (p : path) : path :=
  firstn (List.length p - k) p.

Definition backgroundAt (doc : Node) (p : path) : jsstring :=
  c_backgroundColor (getComputedStyle doc p).

(** The classification made by the collecting loop of
    [invertColorsForPDF] for the element at [p]. *)
Definition lightOnDarkAt (f : jsstring -> Color) (doc : Node) (p : path) : bool :=
  isLightOnDark f (c_color (getComputedStyle doc p))
    (getEffectiveBackgroundColor doc p).

(** Small trees. *)
Definition DIV (cs : list Node) := Element (str "DIV") noStyle cs.
Definition SPAN (cs : list Node) := Element (str "SPAN") noStyle cs.
Definition EM (cs : list Node) := Element (str "EM") noStyle cs.
Definition T (s : string) := Text (str s).

(** [Node.textContent] of a subtree: the text of its leaves, in document
    order. *)
Fixpoint renderedText (n : Node) : jsstring :=
  match n with
  | Text s => s
  | Element _ _ cs =>
      (fix kids (l : list Node) : jsstring :=
         match l with
         | [] => []
         | c :: r => renderedText c ++ kids r
         end) cs
  | Comment _ => []
  end.

(** Scenario A: [<span>Hello</span><em>world</em>] inside its container. *)
Definition scenarioA_tree : Node := DIV [SPAN [T "Hello"]; EM [T "world"]].

(** The declared text colour of the element at [p]. *)
Definition colorAt (doc : Node) (p : path) : option jsstring :=
  match styleAt doc p with
  | Some st => color st
  | None => None
  end.

Definition sameDeclaration (a b : option jsstring) : bool :=
  match a, b with
  | Some x, Some y => eqb x y
  | None, None => true
  | _, _ => false
  end.

(** The number of elements whose declared text colour differs between
    two states of the document. *)
Definition rewrittenCount (before after : Node) : nat :=
  List.length
    (filter (fun p => negb (sameDeclaration (colorAt before p) (colorAt after p)))
            (elementNodes before)).

(** A colour-resolution service for the examples. *)
Definition resolveNothing : jsstring -> Color := fun _ => (None, None, None).

Definition styled (c b : jsstring) : Style := mkStyle (Some c) (Some b) None None.

(** Scenario C: yellow text on an own black background. *)
Definition scenarioC_tree : Node :=
  DIV [Element (str "P") (styled yellow black) [T "warning"]].

(** Scenario D: mid-gray text on an own mid-gray background. *)
Definition scenarioD_tree : Node :=
  DIV [Element (str "P") (styled gray100 gray120) [T "note"]].

(** Dark gray text that is still lighter than its own black background. *)
Definition scenarioE_tree : Node :=
  DIV [Element (str "P") (styled gray120 black) [T "aside"]].

(** Follows the spec's words: a channel value [v] scaled to [0,1] becomes
    [v/12.92] if [v <= 0.03928], else [((v+0.055)/1.055)^2.4]. *)
Definition specChannel (v : R) : R :=
  if Rle_dec v 0.03928 then (v / 12.92)%R
  else Rpower ((v + 0.055) / 1.055) 2.4.

(** Follows the spec's words: channels are combined as
    [0.2126 R + 0.7152 G + 0.0722 B]. *)
Definition specLuminance (r g b : R) : R :=
  (0.2126 * specChannel r + 0.7152 * specChannel g + 0.0722 * specChannel b)%R.

(** An element eleven levels below a black root, with nothing declared in
    between, and the same element one level higher. *)
Fixpoint nested (n : nat) (inner : Node) : Node :=
  match n with
  | 0 => inner
  | S k => Element (str "DIV") noStyle [nested k inner]
  end.

Definition deepTree : Node :=
  Element (str "DIV") (mkStyle None (Some black) None None)
          [nested 10 (Element (str "P") noStyle [])].

Ltac settle_comparisons :=
  repeat match goal with
    | |- context [(?a <=? ?b)%N] =>
        first [ replace (a <=? b)%N with true
                  by (symmetry; apply N.leb_le; lia)
              | replace (a <=? b)%N with false
                  by (symmetry; apply N.leb_gt; lia) ]
    | |- context [(?a =? ?b)%N] =>
        first [ replace (a =? b)%N with true
                  by (symmetry; apply N.eqb_eq; lia)
              | replace (a =? b)%N with false
                  by (symmetry; apply N.eqb_neq; lia) ]
    | |- context [(?a <? ?b)%N] =>
        first [ replace (a <? b)%N with true
                  by (symmetry; apply N.ltb_lt; lia)
              | replace (a <? b)%N with false
                  by (symmetry; apply N.ltb_ge; lia) ]
    end.

(* ================================================================== *)
(** * Further vocabulary *)

(** The tree with [g] applied to the content of every text node. *)
Fixpoint mapText (g : jsstring -> jsstring) (n : Node) : Node :=
  match n with
  | Text s => Text (g s)
  | Element t st cs => Element t st (map (mapText g) cs)
  | Comment d => Comment d
  end.

(** A neighbour next to which the pass asks for no space: none at all, a
    block-level element, or a node that is neither text nor element. *)
Definition breaksFlow (o : option Node) : Prop :=
  match o with
  | None => True
  | Some (Element t _ _) => In (toLowerCase t) blockElements
  | Some (Comment _) => True
  | Some (Text _) => False
  end.

(** An element that is not block-level. *)
Definition inlineElement (o : option Node) : Prop :=
  match o with
  | Some (Element t _ _) => ~ In (toLowerCase t) blockElements
  | _ => False
  end.

(** The hexadecimal digit of value [d], in lower or upper case. *)
Definition hexDigit (upper : bool) (d : N) : N :=
  (if d <? 10 then 48 + d else if upper then 55 + d else 87 + d)%N.

(** A channel written as two hexadecimal digits. *)
Definition hex2 (upper : bool) (v : N) : jsstring :=
  [hexDigit upper (v / 16); hexDigit upper (v mod 16)].

(** The notation [#rrggbb] of a colour. *)
Definition hexColor (upper : bool) (r g b : N) : jsstring :=
  35%N :: hex2 upper r ++ hex2 upper g ++ hex2 upper b.

(** The colour with the channels [r], [g], [b]. *)
Definition rgb (r g b : Z) : Color := (Some r, Some g, Some b).

Definition isByte (v : Z) : Prop := (0 <= v <= 255)%Z.

(** The tree without its style declarations. *)
Fixpoint eraseStyles (n : Node) : Node :=
  match n with
  | Element t _ cs => Element t noStyle (map eraseStyles cs)
  | _ => n
  end.

(** The declaration of one style property on the element at [p]: none
    when there is no element there. *)
Definition declared (proj : Style -> option jsstring) (doc : Node) (p : path)
  : option (option jsstring) :=
  option_map proj (styleAt doc p).


(* ================================================================== *)
(** * scripts/pdf-generator.js *)

Module PdfGenerator.

(** A code unit that [/[a-z0-9]/i] matches.  Without the [u] flag a
    character outside ASCII is never identified with an ASCII letter, so
    these are the ASCII letters and digits. *)
Definition isAlnum (c : N) : bool :=
  ((48 <=? c) && (c <=? 57) || (65 <=? c) && (c <=? 90)
   || (97 <=? c) && (c <=? 122))%N.

Definition underscore : N := 95%N.

(** [.replace(/[^a-z0-9]/gi, '_')] *)
Definition replaceUnsafe (s : jsstring) : jsstring :=
  map (fun c => if isAlnum c then c else underscore) s.

(** [.replace(/_+/g, '_')]: every maximal run of underscores becomes one
    underscore, which is the last one of the run. *)
Fixpoint collapseUnderscores (s : jsstring) : jsstring :=
  match s with
  | [] => []
  | c :: r =>
      if (c =? underscore)%N && match r with
                                | d :: _ => (d =? underscore)%N
                                | [] => false
                                end
      then collapseUnderscores r
      else c :: collapseUnderscores r
  end.

(** After the first replacement every character is ASCII, where
    [toLowerCase] lowers the letters [A] to [Z] and nothing else. *)
Definition sanitizeFilename (filename : jsstring) : jsstring :=
  toLowerCase (collapseUnderscores (replaceUnsafe filename)).

(** [CONFIG.PDF_OPTIONS.margin.top] of scripts/config.js. *)
Definition marginTop : R := 10.

(** A Number of the page arithmetic: a real number, an infinity, or
    NaN. *)
Inductive Num :=
| finite (x : R)
| infinity (negative : bool)
| notANumber.

(** [a / b] for finite numbers; a divisor that is zero is the zero of an
    integer property, never the negative one. *)
Definition divide (a b : R) : Num :=
  if Req_dec_T b 0 then
    if Req_dec_T a 0 then notANumber
    else infinity (if Rlt_dec a 0 then true else false)
  else finite (a / b).

(** [a - b] *)
Definition minus (a b : Num) : Num :=
  match a, b with
  | finite x, finite y => finite (x - y)
  | notANumber, _ | _, notANumber => notANumber
  | infinity s, finite _ => infinity s
  | finite _, infinity s => infinity (negb s)
  | infinity s, infinity t => if Bool.eqb s t then notANumber else infinity s
  end.

(** [a + b] *)
Definition plus (a b : Num) : Num :=
  match a, b with
  | finite x, finite y => finite (x + y)
  | notANumber, _ | _, notANumber => notANumber
  | infinity s, finite _ => infinity s
  | finite _, infinity s => infinity s
  | infinity s, infinity t => if Bool.eqb s t then infinity s else notANumber
  end.

(** [a > 0] *)
Definition positive (a : Num) : bool :=
  match a with
  | finite x => if Rlt_dec 0 x then true else false
  | infinity negative => negb negative
  | notANumber => false
  end.

(** The calls that [generatePDF] makes on the document it builds. *)
Inductive PdfCall :=
| addImage (x y width height : Num)
| addPage
| save (filename : jsstring).

(** The [while (heightLeft > 0)] loop of [generatePDF].  [fuel] bounds the
    number of iterations; [None] means that the bound was reached with
    the loop still running. *)
Fixpoint addPages (fuel : nat) (margin imgWidth : R) (imgHeight : Num)
         (contentHeight : R) (heightLeft : Num) : option (list PdfCall) :=
  match fuel with
  | 0 => None
  | S k =>
      if positive heightLeft then
        let position := plus (minus heightLeft imgHeight) (finite margin) in
        match addPages k margin imgWidth imgHeight contentHeight
                (minus heightLeft (finite contentHeight)) with
        | Some calls =>
            Some (addPage
                  :: addImage (finite margin) position (finite imgWidth)
                       imgHeight
                  :: calls)
        | None => None
        end
      else Some []
  end.

(** The page layout of [generatePDF], from the page size of the document
    and the size of the rendered canvas to the calls made on the
    document.  The page size is finite; the height of the image is not
    when the canvas has no width. *)
Definition generatePDF (fuel : nat) (pdfWidth pdfHeight : R)
           (canvasWidth canvasHeight : R) (name : jsstring)
  : option (list PdfCall) :=
  let margin := marginTop in
  let contentWidth := (pdfWidth - margin * 2)%R in
  let contentHeight := (pdfHeight - margin * 2)%R in
  let imgWidth := contentWidth in
  let imgHeight := divide (canvasHeight * imgWidth) canvasWidth in
  let heightLeft := imgHeight in
  let position := margin in
  let heightLeft := minus heightLeft (finite contentHeight) in
  match addPages fuel margin imgWidth imgHeight contentHeight heightLeft with
  | Some calls =>
      Some (addImage (finite margin) (finite position) (finite imgWidth)
              imgHeight
            :: calls
            ++ [save (sanitizeFilename name ++ str ".pdf")])
  | None => None
  end.

End PdfGenerator.

Import PdfGenerator.

(** A character of a sanitized file name: a lower-case ASCII letter, a
    digit, or the underscore. *)
Definition isSafeUnit (c : N) : bool :=
  ((48 <=? c) && (c <=? 57) || (97 <=? c) && (c <=? 122) || (c =? 95))%N.



(** Two underscores in a row. *)
Fixpoint hasDoubleUnderscore (s : jsstring) : bool :=
  match s with
  | c :: ((d :: _) as r) =>
      ((c =? 95) && (d =? 95))%N || hasDoubleUnderscore r
  | _ => false
  end.

(* ================================================================== *)
(** * scripts/main.js *)

Module Main.

(** What [handleExportClick] reads of a journal: its name, and the size
    of its page collection when it has one. *)
Record Journal := mkJournal {
  name : jsstring;
  pages : option nat
}.

(** The calls on [ui.notifications]. *)
Inductive Notification :=
| warnInProgress
| warnNoPages
| infoExporting (journal : jsstring)
| successExported (journal : jsstring)
| errorFailed (message : jsstring).

(** The module variable [exportInProgress], the calls of
    [handleExportClick] that wait at [await exportJournalToPDF(journal)],
    each with the name of its journal, and the notifications shown so
    far. *)
Record State := mkState {
  exportInProgress : bool;
  waiting : list jsstring;
  notifications : list Notification
}.

Definition initial : State := mkState false [] [].

(** [handleExportClick] from its first line to the [await]. *)
Definition handleExportClick (st : State) (journal : Journal) : State :=
  if exportInProgress st then
    mkState (exportInProgress st) (waiting st)
            (notifications st ++ [warnInProgress])
  else
    match pages journal with
    | None | Some 0 =>
        mkState (exportInProgress st) (waiting st)
                (notifications st ++ [warnNoPages])
    | Some (S _) =>
        mkState true (waiting st ++ [name journal])
                (notifications st ++ [infoExporting (name journal)])
    end.

(** How the awaited export ends. *)
Inductive Outcome :=
| fulfilled
| rejected (message : jsstring).

Fixpoint removeNth {A} (i : nat) (l : list A) : list A :=
  match l, i with
  | [], _ => []
  | _ :: r, 0 => r
  | x :: r, S j => x :: removeNth j r
  end.

(** [handleExportClick] from the [await] to its end, for the [i]-th of
    the waiting calls: the notification of the [try] or of the [catch],
    then the [finally]. *)
Definition resume (st : State) (i : nat) (o : Outcome) : State :=
  match nth_error (waiting st) i with
  | Some journal =>
      mkState false (removeNth i (waiting st))
              (notifications st
               ++ [match o with
                   | fulfilled => successExported journal
                   | rejected message => errorFailed message
                   end])
  | None => st
  end.

(** What can happen next: a click on the export button of a journal, or
    the end of an export that is under way. *)
Inductive Event :=
| click (journal : Journal)
| settle (i : nat) (o : Outcome).

Definition step (st : State) (e : Event) : State :=
  match e with
  | click journal => handleExportClick st journal
  | settle i o => resume st i o
  end.

Definition run (events : list Event) : State := fold_left step events initial.

End Main.

Ltac split_comparisons :=
  repeat match goal with
    | |- context [(?a <=? ?b)%N] => destruct (N.leb_spec a b)
    | |- context [(?a =? ?b)%N] => destruct (N.eqb_spec a b)
    | H : context [(?a <=? ?b)%N] |- _ => destruct (N.leb_spec a b)
    | H : context [(?a =? ?b)%N] |- _ => destruct (N.eqb_spec a b)
    end.

(* ================================================================== *)
(** * The code on small inputs *)

Example wrapped_leaves :
  normalizeWhitespace (DIV [SPAN [T "Hello"]; EM [T "world"]])
  = DIV [SPAN [T "Hello"]; EM [T "world"]].
Proof. vm_compute. reflexivity. Qed.

Example adjacent_text :
  normalizeWhitespace (DIV [T "Hello"; T "world"])
  = DIV [T "Hello "; T " world"].
Proof. vm_compute. reflexivity. Qed.

Example inline_and_block_siblings :
  normalizeWhitespace (DIV [T "Hello"; EM [T "big"]; T "world"; DIV []; T "x"])
  = DIV [T "Hello "; EM [T "big"]; T " world"; DIV []; T "x"].
Proof. vm_compute. reflexivity. Qed.

Example parse_transparent f : parseColor f (str "transparent") = white.
Proof. vm_compute. reflexivity. Qed.
Example parse_rgba_zero f : parseColor f (str "rgba(0, 0, 0, 0)") = (Some 0, Some 0, Some 0)%Z.
Proof. vm_compute. reflexivity. Qed.
Example parse_short_hex f : parseColor f (str "#fff") = white.
Proof. vm_compute. reflexivity. Qed.
Example parse_hex_prefix f : parseColor f (str "#ff00fg") = (Some 255, Some 0, Some 15)%Z.
Proof. vm_compute. reflexivity. Qed.
Example parse_rgb_inside f : parseColor f (str "xxrgb(12,034,   5") = (Some 12, Some 34, Some 5)%Z.
Proof. vm_compute. reflexivity. Qed.
Example parse_hex_garbage f : parseColor f (str "#-1zz0x") = (Some (-1), None, None)%Z.
Proof. vm_compute. reflexivity. Qed.

(* ================================================================== *)
(** * Strings *)

Lemma space_is_white : isWhiteSpace space = true.
Proof. reflexivity. Qed.

Lemma trimStart_app s t :
  trimStart (s ++ t)
  = match trimStart s with [] => trimStart t | _ :: _ => trimStart s ++ t end.
Proof.
  induction s as [|c s IH]; simpl.
  - destruct (trimStart t); reflexivity.
  - destruct (isWhiteSpace c); [exact IH | reflexivity].
Qed.

Lemma trim_space_cons s : trim (space :: s) = trim s.
Proof. reflexivity. Qed.

Lemma trim_snoc_space s : trim (s ++ [space]) = trim s.
Proof.
  unfold trim. rewrite trimStart_app.
  destruct (trimStart s) as [|c r] eqn:E; [reflexivity|].
  rewrite rev_app_distr. reflexivity.
Qed.

Lemma blank_nil_trim s : isEmpty s = true -> isEmpty (trim s) = true.
Proof. destruct s; [reflexivity | discriminate]. Qed.

Lemma blank_eq s : blank s = isEmpty (trim s).
Proof.
  unfold blank. destruct (isEmpty s) eqn:E; [|reflexivity].
  now rewrite (blank_nil_trim _ E).
Qed.

Lemma blank_addLeading s : blank (addLeading s) = blank s.
Proof.
  unfold addLeading. destruct (negb (startsWithSpace s)); [|reflexivity].
  now rewrite !blank_eq, trim_space_cons.
Qed.

Lemma blank_addTrailing s : blank (addTrailing s) = blank s.
Proof.
  unfold addTrailing. destruct (negb (endsWithSpace s)); [|reflexivity].
  now rewrite !blank_eq, trim_snoc_space.
Qed.

Lemma blank_fixText a b s : blank (fixText a b s) = blank s.
Proof.
  unfold fixText. destruct a, b;
    rewrite ?blank_addTrailing, ?blank_addLeading; reflexivity.
Qed.

Lemma endsWithSpace_snoc s c : endsWithSpace (s ++ [c]) = isWhiteSpace c.
Proof. unfold endsWithSpace. rewrite rev_app_distr. reflexivity. Qed.

Lemma endsWithSpace_cons c s :
  s <> [] -> endsWithSpace (c :: s) = endsWithSpace s.
Proof.
  unfold endsWithSpace. intros H. simpl.
  destruct (rev s) as [|x r] eqn:E; [|reflexivity].
  apply (f_equal (@rev N)) in E. rewrite rev_involutive in E. now subst.
Qed.

Lemma startsWithSpace_app s t :
  s <> [] -> startsWithSpace (s ++ t) = startsWithSpace s.
Proof. destruct s; [congruence | reflexivity]. Qed.

Lemma starts_nonempty s : startsWithSpace s = true -> s <> [].
Proof. destruct s; [discriminate | congruence]. Qed.

Lemma ends_nonempty s : endsWithSpace s = true -> s <> [].
Proof. destruct s; [discriminate | congruence]. Qed.

Lemma addLeading_starts s : startsWithSpace (addLeading s) = true.
Proof.
  unfold addLeading. destruct (startsWithSpace s) eqn:E; simpl; auto.
Qed.

Lemma addTrailing_ends s : endsWithSpace (addTrailing s) = true.
Proof.
  unfold addTrailing. destruct (endsWithSpace s) eqn:E; simpl; auto.
  now rewrite endsWithSpace_snoc.
Qed.

Lemma addLeading_fixed s : startsWithSpace s = true -> addLeading s = s.
Proof. unfold addLeading. now intros ->. Qed.

Lemma addTrailing_fixed s : endsWithSpace s = true -> addTrailing s = s.
Proof. unfold addTrailing. now intros ->. Qed.

Lemma addTrailing_starts s :
  startsWithSpace s = true -> startsWithSpace (addTrailing s) = true.
Proof.
  intros H. unfold addTrailing. destruct (negb (endsWithSpace s)); auto.
  rewrite startsWithSpace_app; auto using starts_nonempty.
Qed.

Lemma addLeading_ends s :
  endsWithSpace s = true -> endsWithSpace (addLeading s) = true.
Proof.
  intros H. unfold addLeading. destruct (negb (startsWithSpace s)); auto.
  rewrite endsWithSpace_cons; auto using ends_nonempty.
Qed.

Lemma fixText_starts b s : startsWithSpace (fixText true b s) = true.
Proof.
  unfold fixText. destruct b; auto using addLeading_starts, addTrailing_starts.
Qed.

Lemma fixText_ends a s : endsWithSpace (fixText a true s) = true.
Proof. unfold fixText. apply addTrailing_ends. Qed.

Lemma fixText_keeps_start a b s :
  startsWithSpace s = true -> startsWithSpace (fixText a b s) = true.
Proof.
  intros H. unfold fixText.
  destruct a, b; auto using addLeading_starts, addTrailing_starts.
Qed.

Lemma fixText_keeps_end a b s :
  endsWithSpace s = true -> endsWithSpace (fixText a b s) = true.
Proof.
  intros H. unfold fixText.
  destruct a, b; auto using addLeading_ends, addTrailing_ends.
Qed.

Lemma normText_keeps_start p n s :
  startsWithSpace s = true -> startsWithSpace (normText p n s) = true.
Proof.
  intros H. unfold normText. destruct (blank s); auto using fixText_keeps_start.
Qed.

Lemma normText_keeps_end p n s :
  endsWithSpace s = true -> endsWithSpace (normText p n s) = true.
Proof.
  intros H. unfold normText. destruct (blank s); auto using fixText_keeps_end.
Qed.

(** A second round of fixes whose decisions are implied by those of the
    first round changes nothing. *)
Lemma fixText_absorb a b a' b' s :
  (a' = true -> a = true) -> (b' = true -> b = true) ->
  fixText a' b' (fixText a b s) = fixText a b s.
Proof.
  intros Ha Hb. unfold fixText at 1.
  assert (E1 : (if a' then addLeading (fixText a b s) else fixText a b s)
               = fixText a b s).
  { destruct a'; [|reflexivity]. rewrite (Ha eq_refl).
    apply addLeading_fixed, fixText_starts. }
  rewrite E1. destruct b'; [|reflexivity]. rewrite (Hb eq_refl).
  apply addTrailing_fixed, fixText_ends.
Qed.

(* ================================================================== *)
(** * The whitespace pass, structurally *)

Lemma norm_Element p n t st cs :
  norm p n (Element t st cs) = Element t st (normKids None cs).
Proof. reflexivity. Qed.

Lemma norm_context_free p n p' n' x :
  (forall s, x <> Text s) -> norm p n x = norm p' n' x.
Proof. destruct x; intros H; [now elim (H textContent) | reflexivity..]. Qed.

(** A sibling after the pass asks for a space only if it did before. *)
Lemma leadOf_norm a b x :
  leadOf (Some (norm a b x)) = true -> leadOf (Some x) = true.
Proof.
  destruct x as [s|t st cs|d]; simpl; auto.
  destruct (endsWithSpace s) eqn:E; [|reflexivity].
  now rewrite (normText_keeps_end a b _ E).
Qed.

Lemma trailOf_norm a b x :
  trailOf (Some (norm a b x)) = true -> trailOf (Some x) = true.
Proof.
  destruct x as [s|t st cs|d]; simpl; auto.
  destruct (startsWithSpace s) eqn:E; [|reflexivity].
  now rewrite (normText_keeps_start a b _ E).
Qed.

Lemma leadOf_after o o' : after o o' -> leadOf o' = true -> leadOf o = true.
Proof. destruct 1; eauto using leadOf_norm. Qed.

Lemma trailOf_after o o' : after o o' -> trailOf o' = true -> trailOf o = true.
Proof. destruct 1; eauto using trailOf_norm. Qed.

Lemma normText_absorb p n p' n' s :
  after p p' -> after n n' ->
  normText p' n' (normText p n s) = normText p n s.
Proof.
  intros Hp Hn. unfold normText at 2. destruct (blank s) eqn:B.
  - unfold normText. now rewrite B.
  - unfold normText. rewrite blank_fixText, B.
    apply fixText_absorb; eauto using leadOf_after, trailOf_after.
Qed.

Lemma after_hd a r : after (hd_error r) (hd_error (normKids a r)).
Proof. destruct r; simpl; constructor. Qed.

Lemma normKids_absorb l :
  Forall (fun x => forall p n p' n', after p p' -> after n n' ->
                   norm p' n' (norm p n x) = norm p n x) l ->
  forall p p', after p p' -> normKids p' (normKids p l) = normKids p l.
Proof.
  induction 1 as [|c r Hc _ IH]; intros p p' Hp; simpl; [reflexivity|].
  f_equal.
  - apply Hc; [exact Hp | apply after_hd].
  - apply IH. constructor.
Qed.

Lemma norm_absorb x :
  forall p n p' n', after p p' -> after n n' ->
  norm p' n' (norm p n x) = norm p n x.
Proof.
  induction x as [s|t st cs IH|d] using Node_ind; intros p n p' n' Hp Hn.
  - simpl. f_equal. now apply normText_absorb.
  - rewrite !norm_Element. f_equal. apply normKids_absorb; [exact IH | constructor].
  - reflexivity.
Qed.

Lemma norm_idempotent x : norm None None (norm None None x) = norm None None x.
Proof. apply norm_absorb; constructor. Qed.

(* ================================================================== *)
(** * Updating one child *)

Lemma mapNth_here {A} (f : A -> A) pre x r :
  mapNth f (List.length pre) (pre ++ x :: r) = pre ++ f x :: r.
Proof. induction pre; simpl; [reflexivity | now f_equal]. Qed.

Lemma nth_error_here {A} (pre : list A) x r :
  nth_error (pre ++ x :: r) (List.length pre) = Some x.
Proof. induction pre; simpl; auto. Qed.

Lemma mapNth_ext_at {A} (f g : A -> A) i l x :
  nth_error l i = Some x -> f x = g x -> mapNth f i l = mapNth g i l.
Proof.
  revert i. induction l as [|y l IH]; intros [|i] H E; simpl in *;
    try discriminate.
  - injection H as ->. now rewrite E.
  - f_equal. eauto.
Qed.

Lemma mapNth_id {A} i (l : list A) : mapNth (fun x => x) i l = l.
Proof.
  revert i. induction l as [|y l IH]; intros [|i]; simpl; auto.
  now rewrite IH.
Qed.

Lemma nth_error_mapNth {A} (f : A -> A) i l :
  nth_error (mapNth f i l) i = option_map f (nth_error l i).
Proof.
  revert i. induction l as [|y l IH]; intros [|i]; simpl; auto.
Qed.

Lemma nth_error_mapNth_other {A} (f : A -> A) i j l :
  i <> j -> nth_error (mapNth f i l) j = nth_error l j.
Proof.
  revert i j. induction l as [|y l IH]; intros [|i] [|j] H; simpl; auto.
  congruence.
Qed.

Lemma mapNth_mapNth {A} (f g : A -> A) i l :
  mapNth f i (mapNth g i l) = mapNth (fun x => f (g x)) i l.
Proof.
  revert i. induction l as [|y l IH]; intros [|i]; simpl; auto.
  now rewrite IH.
Qed.

Lemma prev_of_prefix {A} (pre l : list A) :
  match List.length pre with
  | 0 => None
  | S j => nth_error (pre ++ l) j
  end = hd_error (rev pre).
Proof.
  destruct pre as [|x pre'] using rev_ind; [reflexivity|].
  rewrite length_app, Nat.add_1_r, rev_app_distr, <- app_assoc. simpl.
  apply nth_error_here.
Qed.

(* ================================================================== *)
(** * The two loops of [normalizeWhitespace] compute [norm] *)

Lemma textNodes_Element t st cs : textNodes (Element t st cs) = textKids 0 cs.
Proof. reflexivity. Qed.

Lemma textKids_below l : forall i q, In q (textKids i l) -> q <> [].
Proof.
  induction l as [|c r IH]; simpl; intros i q H; [contradiction|].
  apply in_app_or in H. destruct H as [H|H]; [|eauto].
  destruct c.
  - destruct H as [<-|[]]. discriminate.
  - apply in_map_iff in H. destruct H as (x & <- & _). discriminate.
  - apply in_map_iff in H. destruct H as (x & <- & _). discriminate.
Qed.

Lemma textNodes_below n q : In q (textNodes n) -> q <> [].
Proof.
  destruct n; simpl; try contradiction.
  apply (textKids_below childNodes 0).
Qed.

Lemma getTextContent_under t st cs i c q :
  nth_error cs i = Some c ->
  getTextContent (Element t st cs) (i :: q) = getTextContent c q.
Proof. intros H. unfold getTextContent. simpl. now rewrite H. Qed.

Lemma siblings_under t st cs i c q :
  nth_error cs i = Some c -> q <> [] ->
  siblings (Element t st cs) (i :: q) = siblings c q.
Proof. intros H Hq. destruct q; [congruence|]. simpl. now rewrite H. Qed.

Lemma needsLeadingSpace_under t st cs i c q :
  nth_error cs i = Some c -> q <> [] ->
  needsLeadingSpace (Element t st cs) (i :: q) = needsLeadingSpace c q.
Proof.
  intros H Hq. unfold needsLeadingSpace, previousSibling.
  now rewrite (siblings_under t st cs i c q H Hq).
Qed.

Lemma needsTrailingSpace_under t st cs i c q :
  nth_error cs i = Some c -> q <> [] ->
  needsTrailingSpace (Element t st cs) (i :: q) = needsTrailingSpace c q.
Proof.
  intros H Hq. unfold needsTrailingSpace, nextSibling.
  now rewrite (siblings_under t st cs i c q H Hq).
Qed.

Lemma collect_under t st cs i c q :
  nth_error cs i = Some c -> q <> [] ->
  collect (Element t st cs) (i :: q) = map (under i) (collect c q).
Proof.
  intros H Hq. unfold collect.
  rewrite (getTextContent_under t st cs i c q H),
    (needsLeadingSpace_under t st cs i c q H Hq),
    (needsTrailingSpace_under t st cs i c q H Hq).
  destruct (isEmpty _ || isEmpty _); [reflexivity|].
  rewrite map_app.
  destruct (needsLeadingSpace c q), (needsTrailingSpace c q); reflexivity.
Qed.

Lemma nodesToFix_under t st cs i c l :
  nth_error cs i = Some c -> (forall q, In q l -> q <> []) ->
  flat_map (collect (Element t st cs)) (map (cons i) l)
  = map (under i) (flat_map (collect c) l).
Proof.
  intros H. induction l as [|q l IH]; intros Hl; simpl; [reflexivity|].
  rewrite map_app, IH by (intros; apply Hl; now right).
  f_equal. apply collect_under; [exact H | apply Hl; now left].
Qed.

Lemma applyFix_under t st cs i c fx :
  nth_error cs i = Some c ->
  applyFix (Element t st cs) (under i fx)
  = Element t st (mapNth (fun x => applyFix x fx) i cs).
Proof.
  intros H. destruct fx as [q pos]. unfold under, applyFix. cbn [fst snd].
  rewrite (getTextContent_under t st cs i c q H).
  assert (Same : mapNth (fun x => x) i cs = cs) by apply mapNth_id.
  destruct pos.
  - destruct (negb (startsWithSpace (getTextContent c q))) eqn:E.
    + unfold setTextContent. cbn [updateAt]. f_equal.
      apply (mapNth_ext_at _ _ i cs c H). now rewrite E.
    + rewrite <- Same at 1. f_equal.
      apply (mapNth_ext_at _ _ i cs c H). now rewrite E.
  - destruct (negb (endsWithSpace (getTextContent c q))) eqn:E.
    + unfold setTextContent. cbn [updateAt]. f_equal.
      apply (mapNth_ext_at _ _ i cs c H). now rewrite E.
    + rewrite <- Same at 1. f_equal.
      apply (mapNth_ext_at _ _ i cs c H). now rewrite E.
Qed.

Lemma fold_under t st i fs :
  forall cs c, nth_error cs i = Some c ->
  fold_left applyFix (map (under i) fs) (Element t st cs)
  = Element t st (mapNth (fun x => fold_left applyFix fs x) i cs).
Proof.
  induction fs as [|fx fs IH]; intros cs c H; cbn [map fold_left].
  - now rewrite mapNth_id.
  - rewrite (applyFix_under t st cs i c fx H).
    erewrite IH by (rewrite nth_error_mapNth, H; reflexivity).
    now rewrite mapNth_mapNth.
Qed.

(** A fix recorded for a child text node rewrites that child only. *)
Lemma applyFix_child t st pre s r pos :
  applyFix (Element t st (pre ++ Text s :: r)) ([List.length pre], pos)
  = Element t st
      (pre ++ Text (match pos with
                    | leading => addLeading s
                    | trailing => addTrailing s
                    end) :: r).
Proof.
  unfold applyFix, getTextContent, setTextContent, addLeading, addTrailing.
  cbn [nodeAt updateAt].
  destruct pos; rewrite nth_error_here, mapNth_here;
    match goal with |- context [negb ?b] => destruct b end; reflexivity.
Qed.

Lemma collect_child t st pre s r :
  collect (Element t st (pre ++ Text s :: r)) [List.length pre]
  = if blank s then []
    else (if leadOf (hd_error (rev pre))
          then [([List.length pre], leading)] else [])
      ++ (if trailOf (hd_error r)
          then [([List.length pre], trailing)] else []).
Proof.
  unfold collect, getTextContent, needsLeadingSpace, needsTrailingSpace,
    previousSibling, nextSibling.
  cbn [nodeAt siblings]. rewrite nth_error_here.
  rewrite (prev_of_prefix pre (Text s :: r)).
  replace (nth_error (pre ++ Text s :: r) (S (List.length pre)))
    with (hd_error r).
  2:{ clear. induction pre; simpl; [now destruct r | assumption]. }
  reflexivity.
Qed.

Lemma fold_child t st pre pre' s r :
  List.length pre' = List.length pre ->
  fold_left applyFix
    (collect (Element t st (pre ++ Text s :: r)) [List.length pre])
    (Element t st (pre' ++ Text s :: r))
  = Element t st
      (pre' ++ Text (normText (hd_error (rev pre)) (hd_error r) s) :: r).
Proof.
  intros L. rewrite collect_child, <- L. unfold normText, fixText.
  destruct (blank s); [reflexivity|].
  destruct (leadOf (hd_error (rev pre))), (trailOf (hd_error r));
    cbn [app fold_left]; rewrite ?applyFix_child; reflexivity.
Qed.

Lemma normText_no_siblings s : normText None None s = s.
Proof. unfold normText. now destruct (blank s). Qed.

Lemma fold_kids t st cs :
  Forall (fun c => normalizeWhitespace c = norm None None c) cs ->
  forall l pre pre',
    cs = pre ++ l -> List.length pre' = List.length pre ->
    fold_left applyFix
      (flat_map (collect (Element t st cs)) (textKids (List.length pre) l))
      (Element t st (pre' ++ l))
    = Element t st (pre' ++ normKids (hd_error (rev pre)) l).
Proof.
  intros Hcs. induction l as [|c r IH]; intros pre pre' E L; [reflexivity|].
  cbn [textKids normKids]. rewrite flat_map_app, fold_left_app.
  match goal with
  | |- fold_left _ _ (fold_left applyFix ?fs ?d) = _ =>
      assert (Step : fold_left applyFix fs d
                     = Element t st (pre' ++ norm (hd_error (rev pre))
                                                  (hd_error r) c :: r))
  end.
  { destruct c as [s|tag sty kids|d].
    - cbn [flat_map]. rewrite app_nil_r. subst cs.
      now apply fold_child.
    - assert (Hc : nth_error cs (List.length pre) = Some (Element tag sty kids))
        by (subst cs; apply nth_error_here).
      rewrite (nodesToFix_under t st cs _ _ _ Hc (textNodes_below _)).
      rewrite <- L.
      rewrite (fold_under t st _ _ _ _ (nth_error_here pre' _ r)), mapNth_here.
      do 3 f_equal.
      rewrite Forall_forall in Hcs.
      rewrite (norm_context_free _ _ None None) by discriminate.
      apply (Hcs (Element tag sty kids)). subst cs. apply in_elt.
    - reflexivity. }
  rewrite Step.
  specialize (IH (pre ++ [c]) (pre' ++ [norm (hd_error (rev pre)) (hd_error r) c])).
  rewrite <- !app_assoc, rev_app_distr, !length_app in IH.
  cbn [List.length app rev hd_error] in IH.
  replace (List.length pre + 1) with (S (List.length pre)) in IH by lia.
  apply IH; [exact E | lia].
Qed.

(** Refinement: the loops over node handles compute the structural pass. *)
Lemma normalizeWhitespace_norm n : normalizeWhitespace n = norm None None n.
Proof.
  induction n as [s|t st cs IH|d] using Node_ind.
  - simpl. now rewrite normText_no_siblings.
  - unfold normalizeWhitespace, nodesToFix.
    rewrite textNodes_Element, norm_Element.
    exact (fold_kids t st cs IH cs [] [] eq_refl eq_refl).
  - reflexivity.
Qed.

(* ================================================================== *)
(** * Reading the result of the pass at a path *)

Lemma nth_error_normKids l : forall prev i,
  nth_error (normKids prev l) i
  = option_map
      (norm (match i with 0 => prev | S j => nth_error l j end)
            (nth_error l (S i)))
      (nth_error l i).
Proof.
  induction l as [|c r IH]; intros prev [|i]; try reflexivity.
  cbn [normKids nth_error]. rewrite IH. now destruct i.
Qed.

Lemma nodeAt_norm p : forall root a b,
  p <> [] ->
  nodeAt (norm a b root) p
  = option_map (norm (previousSibling root p) (nextSibling root p))
               (nodeAt root p).
Proof.
  induction p as [|i q IH]; intros root a b Hp; [congruence|].
  destruct root as [s|t st cs|d]; try reflexivity.
  rewrite norm_Element. cbn [nodeAt]. rewrite nth_error_normKids.
  destruct (nth_error cs i) as [c|] eqn:E; [|reflexivity].
  cbn [option_map]. destruct q as [|j q].
  - unfold previousSibling, nextSibling. simpl. now destruct i.
  - rewrite IH by discriminate.
    unfold previousSibling, nextSibling.
    now rewrite (siblings_under t st cs i c (j :: q) E) by discriminate.
Qed.

Lemma siblings_norm p : forall root a b,
  siblings (norm a b root) p
  = option_map (fun ci => (normKids None (fst ci), snd ci)) (siblings root p).
Proof.
  induction p as [|i q IH]; intros root a b; [reflexivity|].
  destruct root as [s|t st cs|d]; try reflexivity.
  rewrite norm_Element. cbn [siblings].
  destruct q as [|j q]; [reflexivity|].
  rewrite nth_error_normKids.
  destruct (nth_error cs i) as [c|]; [apply IH | reflexivity].
Qed.

Lemma previousSibling_norm root p a b :
  after (previousSibling root p) (previousSibling (norm a b root) p).
Proof.
  unfold previousSibling. rewrite siblings_norm.
  destruct (siblings root p) as [[cs [|j]]|]; cbn [option_map fst snd];
    try constructor.
  rewrite nth_error_normKids. destruct (nth_error cs j); constructor.
Qed.

Lemma nextSibling_norm root p a b :
  after (nextSibling root p) (nextSibling (norm a b root) p).
Proof.
  unfold nextSibling. rewrite siblings_norm.
  destruct (siblings root p) as [[cs i]|]; cbn [option_map fst snd];
    try constructor.
  rewrite nth_error_normKids. destruct (nth_error cs (S i)); constructor.
Qed.

Lemma getTextContent_norm root p :
  p <> [] ->
  getTextContent (norm None None root) p
  = match nodeAt root p with
    | Some (Text s) => normText (previousSibling root p) (nextSibling root p) s
    | _ => []
    end.
Proof.
  intros Hp. unfold getTextContent. rewrite (nodeAt_norm p root None None Hp).
  destruct (nodeAt root p) as [[s|t st cs|d]|]; reflexivity.
Qed.

Lemma blank_normText a b s : blank (normText a b s) = blank s.
Proof.
  unfold normText. destruct (blank s) eqn:B; [exact B|].
  now rewrite blank_fixText.
Qed.

(** On the result of the pass every recorded fix finds its space already
    in place. *)
Lemma second_pass_fix_is_void root fx :
  In fx (nodesToFix (norm None None root)) ->
  applyFix (norm None None root) fx = norm None None root.
Proof.
  unfold nodesToFix. rewrite in_flat_map. intros (p & Hp & Hfx).
  pose proof (textNodes_below _ _ Hp) as Hne.
  unfold collect in Hfx. fold (blank (getTextContent (norm None None root) p)) in Hfx.
  pose proof (getTextContent_norm root p Hne) as E.
  destruct (nodeAt root p) as [[s|t st cs|d]|];
    try (rewrite E in Hfx; contradiction).
  rewrite E, blank_normText in Hfx.
  destruct (blank s) eqn:B; [contradiction|].
  assert (Shape : getTextContent (norm None None root) p
                  = fixText (leadOf (previousSibling root p))
                            (trailOf (nextSibling root p)) s)
    by (rewrite E; unfold normText; now rewrite B).
  apply in_app_or in Hfx. destruct Hfx as [Hfx|Hfx].
  - destruct (needsLeadingSpace (norm None None root) p) eqn:L;
      [|contradiction].
    destruct Hfx as [<-|[]]. unfold applyFix. rewrite Shape.
    unfold needsLeadingSpace in L. fold (leadOf (previousSibling (norm None None root) p)) in L.
    rewrite (leadOf_after _ _ (previousSibling_norm root p None None) L).
    now rewrite fixText_starts.
  - destruct (needsTrailingSpace (norm None None root) p) eqn:L;
      [|contradiction].
    destruct Hfx as [<-|[]]. unfold applyFix. rewrite Shape.
    unfold needsTrailingSpace in L. fold (trailOf (nextSibling (norm None None root) p)) in L.
    rewrite (trailOf_after _ _ (nextSibling_norm root p None None) L).
    now rewrite fixText_ends.
Qed.

Lemma nodeAt_snoc p : forall root t st cs i,
  nodeAt root p = Some (Element t st cs) ->
  nodeAt root (p ++ [i]) = nth_error cs i.
Proof.
  induction p as [|j q IH]; intros root t st cs i H; simpl in *.
  - injection H as ->. now destruct (nth_error cs i).
  - destruct root as [s|t' st' cs'|d]; try discriminate.
    destruct (nth_error cs' j); [eauto | discriminate].
Qed.

Lemma siblings_snoc p : forall root t st cs i,
  nodeAt root p = Some (Element t st cs) ->
  siblings root (p ++ [i]) = Some (cs, i).
Proof.
  induction p as [|j q IH]; intros root t st cs i H; simpl in *.
  - now injection H as ->.
  - destruct root as [s|t' st' cs'|d]; try discriminate.
    destruct (nth_error cs' j) as [c|] eqn:E; [|discriminate].
    destruct (q ++ [i]) eqn:Q; [now destruct q | rewrite <- Q; eauto].
Qed.

Lemma blank_of_last s :
  s <> [] -> endsWithSpace s = false -> blank s = false.
Proof.
  intros Hs He. rewrite blank_eq. unfold trim.
  destruct s as [|c s] using rev_ind; [congruence|].
  rewrite endsWithSpace_snoc in He.
  assert (exists y, trimStart (s ++ [c]) = y ++ [c]) as [y ->].
  { rewrite trimStart_app. destruct (trimStart s) as [|x r].
    - exists []. simpl. now rewrite He.
    - now exists (x :: r). }
  rewrite rev_app_distr. simpl. rewrite He.
  cbn [rev]. now destruct (rev (rev y)).
Qed.

Lemma blank_of_first s :
  s <> [] -> startsWithSpace s = false -> blank s = false.
Proof.
  intros Hs He. rewrite blank_eq. unfold trim.
  destruct s as [|c s]; [congruence|]. simpl in He. simpl trimStart at 2.
  rewrite He. change (rev (c :: s)) with (rev s ++ [c]).
  rewrite trimStart_app.
  destruct (trimStart (rev s)) as [|x r].
  - simpl. now rewrite He.
  - rewrite rev_app_distr. reflexivity.
Qed.

(* ================================================================== *)
(** * Numerals and [parseInt] *)

Lemma isDigit_range c : isDigit c = true <-> (48 <= c <= 57)%N.
Proof.
  unfold isDigit. rewrite andb_true_iff, !N.leb_le. tauto.
Qed.

Lemma digit_not_white c : isDigit c = true -> isWhiteSpace c = false.
Proof.
  rewrite isDigit_range. intros H. unfold isWhiteSpace.
  settle_comparisons. reflexivity.
Qed.

Lemma digit_value c : isDigit c = true -> digitValue c = Some (c - 48)%N.
Proof.
  rewrite isDigit_range. intros H. unfold digitValue.
  settle_comparisons. reflexivity.
Qed.

Lemma digit_radix10 c : isDigit c = true -> isRadixDigit 10 c = true.
Proof.
  intros H. unfold isRadixDigit. rewrite (digit_value c H).
  apply isDigit_range in H. apply N.ltb_lt. lia.
Qed.

Lemma span_all f d :
  Forall (fun c => f c = true) d -> span f d = (d, []).
Proof.
  induction 1 as [|c d Hc _ IH]; simpl; [reflexivity|].
  now rewrite Hc, IH.
Qed.

Lemma span_stop f d x rest :
  Forall (fun c => f c = true) d -> f x = false ->
  span f (d ++ x :: rest) = (d, x :: rest).
Proof.
  intros Hd Hx. induction Hd as [|c d Hc _ IH]; simpl.
  - now rewrite Hx.
  - now rewrite Hc, IH.
Qed.

Lemma digitGroup_numeral d x rest :
  numeral d -> isDigit x = false ->
  digitGroup (d ++ x :: rest) = Some (d, x :: rest).
Proof.
  intros [Hne Hd] Hx. unfold digitGroup.
  rewrite (span_stop isDigit d x rest Hd Hx).
  destruct d; [congruence | reflexivity].
Qed.

Lemma trimStart_numeral d rest :
  numeral d -> trimStart (d ++ rest) = d ++ rest.
Proof.
  intros [Hne Hd]. destruct Hd as [|c d Hc _]; [congruence|].
  simpl. now rewrite (digit_not_white c Hc).
Qed.

Lemma parseInt_numeral d :
  numeral d -> parseInt d None = Some (Z.of_N (toDouble (digitsValue 10 d))).
Proof.
  intros Hn. pose proof (trimStart_numeral d [] Hn) as E0.
  rewrite app_nil_r in E0. destruct Hn as [Hne Hd].
  unfold parseInt. rewrite E0.
  destruct Hd as [|c d Hc Hd]; [congruence|].
  assert (Hr := proj1 (isDigit_range c) Hc).
  replace (c =? 45)%N with false by (symmetry; apply N.eqb_neq; lia).
  replace (c =? 43)%N with false by (symmetry; apply N.eqb_neq; lia).
  assert (All : Forall (fun c => isRadixDigit 10 c = true) (c :: d)).
  { constructor; [now apply digit_radix10|].
    eapply Forall_impl; [|exact Hd]. apply digit_radix10. }
  destruct Hd as [|x d Hx Hd].
  - cbv iota beta. rewrite (span_all (isRadixDigit 10) [c] All).
    cbn [fst]. now rewrite Z.mul_1_l.
  - apply isDigit_range in Hx.
    replace (x =? 120)%N with false by (symmetry; apply N.eqb_neq; lia).
    replace (x =? 88)%N with false by (symmetry; apply N.eqb_neq; lia).
    cbn [orb]. rewrite andb_false_r. cbn [andb]. cbv iota beta.
    rewrite (span_all (isRadixDigit 10) (c :: x :: d) All).
    cbn [fst]. now rewrite Z.mul_1_l.
Qed.

Lemma unitsOfUint_digits u : Forall (fun c => isDigit c = true) (unitsOfUint u).
Proof. induction u; simpl; constructor; auto. Qed.

Lemma digits_fold u : forall acc,
  fold_left
    (fun acc c => match digitValue c with
                  | Some v => acc * 10 + v
                  | None => acc
                  end)%N (unitsOfUint u) acc
  = (DecimalPos.Unsigned.of_lu (Decimal.rev u) + acc * 10 ^ DecimalPos.Unsigned.usize u)%N.
Proof.
  induction u; intros acc; cbn [unitsOfUint fold_left DecimalPos.Unsigned.usize];
    [simpl; ring | ..];
    match goal with
    | |- context [digitValue ?c] =>
        let v := eval vm_compute in (digitValue c) in
        change (digitValue c) with v
    end;
    cbv iota beta; rewrite IHu; unfold Decimal.rev; cbn [Decimal.revapp];
    match goal with
    | |- _ = (DecimalPos.Unsigned.of_lu (Decimal.revapp u ?d) + _)%N =>
        rewrite (DecimalPos.Unsigned.of_lu_revapp u d)
    end;
    rewrite N.pow_succ_r'; cbn [DecimalPos.Unsigned.of_lu];
    unfold Decimal.rev; ring.
Qed.

Lemma digitsValue_decimal n : digitsValue 10 (decimal n) = n.
Proof.
  unfold digitsValue, decimal. rewrite digits_fold.
  rewrite N.mul_0_l, N.add_0_r, <- DecimalPos.Unsigned.of_uint_alt.
  apply DecimalN.Unsigned.of_to.
Qed.

Lemma decimal_numeral n : numeral (decimal n).
Proof.
  split; [|apply unitsOfUint_digits].
  unfold decimal. destruct n as [|p]; [discriminate|].
  simpl. pose proof (DecimalPos.Unsigned.to_uint_nonnil p) as H.
  destruct (Pos.to_uint p); [congruence | discriminate..].
Qed.

Lemma toDouble_exact n : (n < 9007199254740992)%N -> toDouble n = n.
Proof.
  intros H. unfold toDouble.
  now replace (n <? 9007199254740992)%N with true
    by (symmetry; now apply N.ltb_lt).
Qed.

Lemma parseInt_decimal n :
  (n < 9007199254740992)%N -> parseInt (decimal n) None = Some (Z.of_N n).
Proof.
  intros H.
  now rewrite (parseInt_numeral (decimal n) (decimal_numeral n)),
    digitsValue_decimal, toDouble_exact.
Qed.

(* ================================================================== *)
(** * The rgb()/rgba() branch of [parseColor] *)

Lemma matchChannels_numerals d1 d2 d3 x rest :
  numeral d1 -> numeral d2 -> numeral d3 -> isDigit x = false ->
  matchChannels
    (40%N :: d1 ++ 44%N :: 32%N :: d2 ++ 44%N :: 32%N :: d3 ++ x :: rest)
  = Some (d1, d2, d3).
Proof.
  intros H1 H2 H3 Hx. unfold matchChannels.
  rewrite (digitGroup_numeral d1 44%N _ H1 eq_refl).
  change (trimStart (32%N :: ?s)) with (trimStart s).
  rewrite (trimStart_numeral d2 _ H2).
  rewrite (digitGroup_numeral d2 44%N _ H2 eq_refl).
  change (trimStart (32%N :: ?s)) with (trimStart s).
  rewrite (trimStart_numeral d3 _ H3).
  now rewrite (digitGroup_numeral d3 x rest H3 Hx).
Qed.

Lemma rgbMatch_here s m : matchRgbHere s = Some m -> rgbMatch s = Some m.
Proof. intros H. destruct s; cbn [rgbMatch]; now rewrite H. Qed.

Lemma rgbMatch_rgba d1 d2 d3 x rest :
  numeral d1 -> numeral d2 -> numeral d3 -> isDigit x = false ->
  rgbMatch
    (str "rgba(" ++ d1 ++ str ", " ++ d2 ++ str ", " ++ d3 ++ x :: rest)
  = Some (d1, d2, d3).
Proof.
  intros H1 H2 H3 Hx. apply rgbMatch_here.
  change (str "rgba(" ++ d1 ++ str ", " ++ d2 ++ str ", " ++ d3 ++ x :: rest)
    with (str "rgb" ++ 97%N :: 40%N :: d1 ++ 44%N :: 32%N :: d2
            ++ 44%N :: 32%N :: d3 ++ x :: rest).
  unfold matchRgbHere.
  change (stripPrefix (str "rgb") (str "rgb" ++ ?s)) with (Some s).
  cbv iota beta.
  now rewrite (matchChannels_numerals d1 d2 d3 x rest H1 H2 H3 Hx).
Qed.

Lemma parseColor_rgba f d1 d2 d3 x rest :
  numeral d1 -> numeral d2 -> numeral d3 -> isDigit x = false ->
  parseColor f
    (str "rgba(" ++ d1 ++ str ", " ++ d2 ++ str ", " ++ d3 ++ x :: rest)
  = (Some (Z.of_N (toDouble (digitsValue 10 d1))),
     Some (Z.of_N (toDouble (digitsValue 10 d2))),
     Some (Z.of_N (toDouble (digitsValue 10 d3)))).
Proof.
  intros H1 H2 H3 Hx. unfold parseColor.
  rewrite (rgbMatch_rgba d1 d2 d3 x rest H1 H2 H3 Hx).
  now rewrite !parseInt_numeral.
Qed.

(* ================================================================== *)
(** * Luminance *)

Section Luminance.
Local Open Scope R_scope.

Lemma Rpower_one y : Rpower 1 y = 1.
Proof. unfold Rpower. rewrite ln_1, Rmult_0_r. apply exp_0. Qed.

Lemma Rpower_unit x y : 0 < x <= 1 -> 0 <= y -> 0 < Rpower x y <= 1.
Proof.
  intros Hx Hy. split; [unfold Rpower; apply exp_pos|].
  rewrite <- (Rpower_one y). apply Rle_Rpower_l; lra.
Qed.

Lemma ln_neg x : 0 < x < 1 -> ln x < 0.
Proof. intros H. rewrite <- ln_1. apply ln_increasing; lra. Qed.

(** Below 1 a larger exponent gives a smaller power. *)
Lemma Rpower_antitone x a b : 0 < x < 1 -> a <= b -> Rpower x b <= Rpower x a.
Proof.
  intros Hx Hab. unfold Rpower. pose proof (ln_neg x Hx) as L.
  destruct (Rle_lt_or_eq_dec a b Hab) as [Lt| ->]; [|lra].
  left. apply exp_increasing. nra.
Qed.

Lemma Rpower_between x : 0 < x < 1 -> x * x * x <= Rpower x 2.4 <= x * x.
Proof.
  intros Hx. split.
  - replace (x * x * x) with (Rpower x (INR 3)).
    + apply Rpower_antitone; [exact Hx | simpl; lra].
    + rewrite Rpower_pow by lra. simpl. ring.
  - replace (x * x) with (Rpower x (INR 2)).
    + apply Rpower_antitone; [exact Hx | simpl; lra].
    + rewrite Rpower_pow by lra. simpl. ring.
Qed.

Lemma linearize_bounds v : 0 <= v <= 255 -> 0 <= linearize v <= 1.
Proof.
  intros Hv. unfold linearize.
  destruct (Rle_dec (v / 255) 0.03928) as [Low|High]; [lra|].
  assert (Hx : 0 < (v / 255 + 0.055) / 1.055 <= 1) by lra.
  pose proof (Rpower_unit _ 2.4 Hx ltac:(lra)). lra.
Qed.

Lemma linearize_0 : linearize 0 = 0.
Proof. unfold linearize. destruct (Rle_dec (0 / 255) 0.03928); lra. Qed.

Lemma linearize_255 : linearize 255 = 1.
Proof.
  unfold linearize. destruct (Rle_dec (255 / 255) 0.03928); [lra|].
  replace ((255 / 255 + 0.055) / 1.055) with 1 by lra.
  apply Rpower_one.
Qed.

Lemma linearize_100 : linearize 100 = Rpower base100 2.4.
Proof.
  unfold linearize. destruct (Rle_dec (100 / 255) 0.03928); [lra|reflexivity].
Qed.

Lemma linearize_120 : linearize 120 = Rpower base120 2.4.
Proof.
  unfold linearize. destruct (Rle_dec (120 / 255) 0.03928); [lra|reflexivity].
Qed.

Lemma gray_order : linearize 100 < linearize 120.
Proof.
  rewrite linearize_100, linearize_120.
  apply Rlt_Rpower_l; unfold base100, base120; lra.
Qed.

Lemma gray100_lower : 0.07 <= linearize 100.
Proof.
  rewrite linearize_100.
  assert (H : 0 < base100 < 1) by (unfold base100; lra).
  pose proof (proj1 (Rpower_between base100 H)) as L.
  assert (0.07 <= base100 * base100 * base100) by (unfold base100; lra).
  lra.
Qed.

Lemma gray120_upper : linearize 120 <= 0.25.
Proof.
  rewrite linearize_120.
  assert (H : 0 < base120 < 1) by (unfold base120; lra).
  pose proof (proj2 (Rpower_between base120 H)) as U.
  assert (base120 * base120 <= 0.25) by (unfold base120; lra).
  lra.
Qed.

End Luminance.

(* ================================================================== *)
(** * Styles along paths *)

Lemma elementNodes_Element t st cs :
  elementNodes (Element t st cs) = elementKids 0 cs.
Proof. reflexivity. Qed.

Lemma styleAt_root t st cs : styleAt (Element t st cs) [] = Some st.
Proof. reflexivity. Qed.

Lemma styleAt_child t st cs i q :
  styleAt (Element t st cs) (i :: q)
  = match nth_error cs i with Some c => styleAt c q | None => None end.
Proof. unfold styleAt. simpl. now destruct (nth_error cs i). Qed.

Lemma styleAt_leaf n i q : isElement n = false -> styleAt n (i :: q) = None.
Proof. destruct n; [reflexivity | discriminate | reflexivity]. Qed.

Lemma setStyle_root f n : setStyle f n [] = restyle f n.
Proof. reflexivity. Qed.

Lemma setStyle_child f t st cs i q :
  setStyle f (Element t st cs) (i :: q)
  = Element t st (mapNth (fun c => setStyle f c q) i cs).
Proof. reflexivity. Qed.

(** Writing the style of one element leaves the style of every other
    element as it was. *)
Lemma styleAt_setStyle f q : forall doc p,
  styleAt (setStyle f doc q) p
  = if list_eq_dec Nat.eq_dec p q then option_map f (styleAt doc p)
    else styleAt doc p.
Proof.
  induction q as [|j q IH]; intros doc p.
  - rewrite setStyle_root. destruct doc as [s|t st cs|d], p as [|i p];
      try reflexivity.
  - destruct doc as [s|t st cs|d];
      try (destruct (list_eq_dec Nat.eq_dec p (j :: q)) as [->|];
           reflexivity).
    rewrite setStyle_child. destruct p as [|i p]; [reflexivity|].
    rewrite !styleAt_child.
    destruct (Nat.eq_dec i j) as [->|Hij].
    + rewrite nth_error_mapNth.
      destruct (nth_error cs j) as [c|] eqn:E; cbn [option_map].
      * rewrite IH.
        destruct (list_eq_dec Nat.eq_dec p q) as [->|Hpq];
          destruct (list_eq_dec Nat.eq_dec _ _) as [E'|E'];
          try reflexivity; congruence.
      * now destruct (list_eq_dec Nat.eq_dec _ _).
    + rewrite nth_error_mapNth_other by congruence.
      destruct (list_eq_dec Nat.eq_dec _ _) as [E'|E']; [congruence|reflexivity].
Qed.

Lemma styleAt_setStyle_same f doc p st :
  styleAt doc p = Some st -> styleAt (setStyle f doc p) p = Some (f st).
Proof.
  intros H. rewrite styleAt_setStyle, H.
  now destruct (list_eq_dec Nat.eq_dec p p).
Qed.

Lemma styleAt_setStyle_other f doc p q :
  p <> q -> styleAt (setStyle f doc q) p = styleAt doc p.
Proof.
  intros H. rewrite styleAt_setStyle.
  now destruct (list_eq_dec Nat.eq_dec p q).
Qed.

(** ** What the styling engine reports for an element *)

Lemma computed_of_style p : forall doc parent st,
  styleAt doc p = Some st ->
  exists inherited, computedFrom parent doc p = cascade inherited st.
Proof.
  induction p as [|i p IH]; intros doc parent st H.
  - destruct doc as [s|t st' cs|d]; try discriminate.
    injection H as ->. now exists parent.
  - destruct doc as [s|t st' cs|d]; try discriminate.
    rewrite styleAt_child in H. simpl.
    destruct (nth_error cs i) as [c|]; [eauto | discriminate].
Qed.

Lemma computed_background doc p st :
  styleAt doc p = Some st ->
  c_backgroundColor (getComputedStyle doc p)
  = orElse (backgroundColor st) (str "rgba(0, 0, 0, 0)").
Proof.
  intros H. destruct (computed_of_style p doc initialStyle st H) as [inh E].
  unfold getComputedStyle. now rewrite E.
Qed.

Lemma computed_color doc p st c :
  styleAt doc p = Some st -> color st = Some c ->
  c_color (getComputedStyle doc p) = c.
Proof.
  intros H Hc. destruct (computed_of_style p doc initialStyle st H) as [inh E].
  unfold getComputedStyle. rewrite E. simpl. now rewrite Hc.
Qed.

Lemma effective_background_own doc p st bg :
  styleAt doc p = Some st -> backgroundColor st = Some bg ->
  isOpaqueDeclaration bg = true ->
  getEffectiveBackgroundColor doc p = bg.
Proof.
  intros H Hb Ho. unfold getEffectiveBackgroundColor. cbn [maxDepth walkUp].
  rewrite (computed_background doc p st H), Hb. cbn [orElse]. now rewrite Ho.
Qed.

(** ** The element walker *)

Lemma elementKids_sound l : forall k p,
  In p (elementKids k l) ->
  exists i q c, p = (k + i) :: q /\ nth_error l i = Some c
                /\ isElement c = true /\ (q = [] \/ In q (elementNodes c)).
Proof.
  induction l as [|c r IH]; intros k p H; [contradiction|].
  cbn [elementKids] in H. apply in_app_or in H. destruct H as [H|H].
  - destruct c as [s|t st cs|d]; try contradiction.
    exists 0, (tl p), (Element t st cs). rewrite Nat.add_0_r.
    destruct H as [<-|H]; [now auto|].
    apply in_map_iff in H. destruct H as (q & <- & Hq). now auto.
  - destruct (IH (S k) p H) as (i & q & c' & -> & E & He & Hq).
    exists (S i), q, c'. rewrite Nat.add_succ_r. now auto.
Qed.

Lemma elementNodes_styled doc : forall p,
  In p (elementNodes doc) -> p <> [] /\ exists st, styleAt doc p = Some st.
Proof.
  induction doc as [s|t st cs IH|d] using Node_ind; intros p H;
    try contradiction.
  rewrite elementNodes_Element in H.
  destruct (elementKids_sound cs 0 p H) as (i & q & c & -> & E & He & Hq).
  split; [discriminate|]. cbn [Nat.add]. rewrite styleAt_child, E.
  destruct Hq as [->|Hq].
  - destruct c; try discriminate. now eexists.
  - rewrite Forall_forall in IH.
    apply (IH c (nth_error_In cs i E) q Hq).
Qed.

Lemma restyle_kind f n : isElement (restyle f n) = isElement n.
Proof. now destruct n. Qed.

Lemma setStyle_kind f n q : isElement (setStyle f n q) = isElement n.
Proof. destruct q, n; reflexivity. Qed.

Lemma elementKids_mapNth g l : forall i k,
  (forall c, In c l -> elementNodes (g c) = elementNodes c) ->
  (forall c, isElement (g c) = isElement c) ->
  elementKids k (mapNth g i l) = elementKids k l.
Proof.
  induction l as [|c r IH]; intros i k Hg Hk; [now destruct i|].
  destruct i as [|i]; cbn [mapNth elementKids].
  - f_equal. specialize (Hk c). rewrite <- (Hg c (or_introl eq_refl)).
    destruct (g c), c; try discriminate; reflexivity.
  - f_equal. apply IH; [|exact Hk]. intros c' Hc'. apply Hg. now right.
Qed.

(** Style mutation does not change what the walker enumerates. *)
Lemma elementNodes_setStyle f doc : forall q,
  elementNodes (setStyle f doc q) = elementNodes doc.
Proof.
  induction doc as [s|t st cs IH|d] using Node_ind; intros q;
    try (destruct q; reflexivity).
  destruct q as [|i q]; [reflexivity|].
  rewrite setStyle_child, !elementNodes_Element.
  apply elementKids_mapNth.
  - rewrite Forall_forall in IH. intros c Hc. now apply IH.
  - intros c. apply setStyle_kind.
Qed.

(* ================================================================== *)
(** * The colours of the scenarios *)

Section ScenarioColours.
Variable f : jsstring -> Color.
Local Open Scope R_scope.

Lemma parse_yellow : parseColor f yellow = (Some 255, Some 255, Some 0)%Z.
Proof. vm_compute. reflexivity. Qed.

Lemma parse_black : parseColor f black = (Some 0, Some 0, Some 0)%Z.
Proof. vm_compute. reflexivity. Qed.

Lemma parse_hexBlack : parseColor f hexBlack = (Some 0, Some 0, Some 0)%Z.
Proof. vm_compute. reflexivity. Qed.

Lemma parse_gray100 :
  parseColor f gray100 = (Some 100, Some 100, Some 100)%Z.
Proof. vm_compute. reflexivity. Qed.

Lemma parse_gray120 :
  parseColor f gray120 = (Some 120, Some 120, Some 120)%Z.
Proof. vm_compute. reflexivity. Qed.

Lemma luminance_yellow :
  calculateLuminance (parseColor f yellow) = Some 0.9278.
Proof.
  rewrite parse_yellow. unfold calculateLuminance.
  rewrite linearize_255, linearize_0. f_equal. lra.
Qed.

Lemma luminance_black : calculateLuminance (parseColor f black) = Some 0.
Proof.
  rewrite parse_black. unfold calculateLuminance.
  rewrite linearize_0. f_equal. lra.
Qed.

Lemma luminance_gray100 :
  calculateLuminance (parseColor f gray100) = Some (linearize 100).
Proof.
  rewrite parse_gray100. unfold calculateLuminance. f_equal. lra.
Qed.

Lemma luminance_gray120 :
  calculateLuminance (parseColor f gray120) = Some (linearize 120).
Proof.
  rewrite parse_gray120. unfold calculateLuminance. f_equal. lra.
Qed.

Lemma div_below a b c : 0 < b -> a < c * b -> a / b < c.
Proof.
  intros Hb H. apply (Rmult_lt_reg_r b); [exact Hb|].
  unfold Rdiv. rewrite Rmult_assoc, Rinv_l by lra. lra.
Qed.

Lemma gt_true a b : b < a -> gt (Some a) (Some b) = true.
Proof. intros H. unfold gt. now destruct (Rlt_dec b a). Qed.

Lemma gt_false a b : a <= b -> gt (Some a) (Some b) = false.
Proof. intros H. unfold gt. destruct (Rlt_dec b a); [lra | reflexivity]. Qed.

Lemma yellow_on_black : isLightOnDark f yellow black = true.
Proof.
  unfold isLightOnDark. rewrite luminance_yellow, luminance_black.
  apply gt_true. lra.
Qed.

Lemma invert_yellow : invertColor f yellow = hexBlack.
Proof.
  unfold invertColor. rewrite luminance_yellow.
  unfold CONFIG.COLOR_THRESHOLDS.lightThreshold.
  rewrite gt_true by lra. reflexivity.
Qed.

Lemma black_is_dark :
  lt (calculateLuminance (parseColor f black))
     (Some CONFIG.COLOR_THRESHOLDS.lightThreshold) = true.
Proof.
  rewrite luminance_black. unfold lt, CONFIG.COLOR_THRESHOLDS.lightThreshold.
  apply gt_true. lra.
Qed.

Lemma gray_not_light_on_dark : isLightOnDark f gray100 gray120 = false.
Proof.
  unfold isLightOnDark. rewrite luminance_gray100, luminance_gray120.
  apply gt_false. pose proof gray_order. lra.
Qed.

Lemma gray_contrast_low :
  lt (calculateContrastRatio (calculateLuminance (parseColor f gray100))
                             (calculateLuminance (parseColor f gray120)))
     (Some CONFIG.COLOR_THRESHOLDS.contrastRatio) = true.
Proof.
  rewrite luminance_gray100, luminance_gray120.
  unfold calculateContrastRatio, lt, CONFIG.COLOR_THRESHOLDS.contrastRatio.
  pose proof gray_order. pose proof gray100_lower. pose proof gray120_upper.
  rewrite Rmax_right, Rmin_left by lra.
  apply gt_true. apply div_below; lra.
Qed.

Lemma gray120_on_black : isLightOnDark f gray120 black = true.
Proof.
  unfold isLightOnDark. rewrite luminance_gray120, luminance_black.
  apply gt_true. rewrite linearize_120. unfold Rpower. apply exp_pos.
Qed.

Lemma invert_gray120 : invertColor f gray120 = gray120.
Proof.
  unfold invertColor. rewrite luminance_gray120.
  unfold CONFIG.COLOR_THRESHOLDS.lightThreshold.
  rewrite gt_false; [reflexivity|]. pose proof gray120_upper. lra.
Qed.

Lemma opaque_black : isOpaqueDeclaration black = true.
Proof. vm_compute. reflexivity. Qed.

Lemma opaque_gray120 : isOpaqueDeclaration gray120 = true.
Proof. vm_compute. reflexivity. Qed.

Lemma opaque_transparent : isOpaqueDeclaration transparent = false.
Proof. vm_compute. reflexivity. Qed.

End ScenarioColours.

(* ================================================================== *)
(** * Reasoning about the passes *)

(** A loop in which the iterations that concern one element turn [P] into
    [Q], and all other iterations keep both. *)
Lemma fold_hits {A} (step : Node -> A -> Node) (hit : A -> Prop)
      (P Q : Node -> Prop) (l : list A) :
  (forall x, hit x \/ ~ hit x) ->
  (forall d x, In x l -> ~ hit x -> (P d -> P (step d x)) /\ (Q d -> Q (step d x))) ->
  (forall d x, In x l -> hit x -> (P d \/ Q d) -> Q (step d x)) ->
  forall d,
    (Q d -> Q (fold_left step l d))
    /\ ((exists x, In x l /\ hit x) -> P d -> Q (fold_left step l d))
    /\ ((forall x, In x l -> ~ hit x) -> P d -> P (fold_left step l d)).
Proof.
  intros Dec. induction l as [|x l IH]; intros Miss Hit d.
  - repeat split; auto. now intros (x & [] & _).
  - assert (Miss' : forall d x, In x l -> ~ hit x ->
                    (P d -> P (step d x)) /\ (Q d -> Q (step d x)))
      by (intros; apply Miss; [now right | assumption]).
    assert (Hit' : forall d x, In x l -> hit x -> (P d \/ Q d) -> Q (step d x))
      by (intros d' x' ? ? ?; apply (Hit d' x'); [now right | assumption..]).
    specialize (IH Miss' Hit').
    cbn [fold_left]. destruct (IH (step d x)) as (IQ & IPQ & IP).
    destruct (Dec x) as [Hx|Hx].
    + repeat split.
      * intros HQ. apply IQ. apply (Hit d x); [now left | exact Hx | now right].
      * intros _ HP. apply IQ. apply (Hit d x); [now left | exact Hx | now left].
      * intros No. now elim (No x (or_introl eq_refl)).
    + destruct (Miss d x (or_introl eq_refl) Hx) as [KP KQ]. repeat split.
      * intros HQ. apply IQ. auto.
      * intros (y & [->|Hy] & Hhit) HP; [contradiction|].
        apply IPQ; eauto.
      * intros No HP. apply IP; [|auto]. intros y Hy. apply No. now right.
Qed.

Lemma fold_preserves {A} (step : Node -> A -> Node) (F : Node -> list path) l :
  (forall d x, F (step d x) = F d) ->
  forall d, F (fold_left step l d) = F d.
Proof.
  intros H. induction l as [|x l IH]; intros d; [reflexivity|].
  cbn [fold_left]. now rewrite IH, H.
Qed.

Lemma HasColors_setStyle_other g doc p q c b :
  p <> q -> HasColors doc p c b -> HasColors (setStyle g doc q) p c b.
Proof.
  intros Hpq (st & H & Hc & Hb). exists st.
  now rewrite (styleAt_setStyle_other g doc p q Hpq).
Qed.

Lemma HasColors_setStyle_keeps g doc p q c b :
  keepsColors g -> HasColors doc p c b -> HasColors (setStyle g doc q) p c b.
Proof.
  intros K (st & H & Hc & Hb). rewrite <- Hc, <- Hb.
  destruct (list_eq_dec Nat.eq_dec p q) as [<-|Hpq].
  - exists (g st). rewrite (styleAt_setStyle_same g doc p st H).
    destruct (K st) as [E1 E2]. now rewrite E1, E2.
  - exists st. now rewrite (styleAt_setStyle_other g doc p q Hpq).
Qed.

Lemma HasColors_withColor doc p v c b :
  HasColors doc p c b ->
  HasColors (setStyle (withColor v) doc p) p (Some v) b.
Proof.
  intros (st & H & Hc & Hb). exists (withColor v st).
  now rewrite (styleAt_setStyle_same _ doc p st H).
Qed.

Lemma HasColors_withBackground doc p v c b :
  HasColors doc p c b ->
  HasColors (setStyle (withBackgroundColor v) doc p) p c (Some v).
Proof.
  intros (st & H & Hc & Hb). exists (withBackgroundColor v st).
  now rewrite (styleAt_setStyle_same _ doc p st H).
Qed.

Lemma HasColors_background doc p c b :
  HasColors doc p c b ->
  c_backgroundColor (getComputedStyle doc p) = orElse b (str "rgba(0, 0, 0, 0)").
Proof.
  intros (st & H & _ & <-). now apply computed_background.
Qed.

Lemma HasColors_color doc p c b :
  HasColors doc p (Some c) b -> c_color (getComputedStyle doc p) = c.
Proof.
  intros (st & H & Hc & _). now apply (computed_color doc p st).
Qed.

Lemma HasColors_effective doc p c b :
  HasColors doc p c (Some b) -> isOpaqueDeclaration b = true ->
  getEffectiveBackgroundColor doc p = b.
Proof.
  intros (st & H & _ & Hb). now apply (effective_background_own doc p st).
Qed.

Section Passes.
Variable f : jsstring -> Color.

(** ** The collecting loop of [invertColorsForPDF] *)

Lemma elementsToInvert_sound doc inv :
  In inv (elementsToInvert f doc) ->
  In (element inv) (elementNodes doc)
  /\ originalColor inv = c_color (getComputedStyle doc (element inv))
  /\ isLightOnDark f (c_color (getComputedStyle doc (element inv)))
       (getEffectiveBackgroundColor doc (element inv)) = true.
Proof.
  unfold elementsToInvert. rewrite in_flat_map. intros (q & Hq & H).
  unfold collectInversion in H.
  destruct (isLightOnDark f _ _) eqn:E; [|contradiction].
  destruct H as [<-|[]]. now cbn.
Qed.

Lemma elementsToInvert_complete doc p :
  In p (elementNodes doc) ->
  isLightOnDark f (c_color (getComputedStyle doc p))
    (getEffectiveBackgroundColor doc p) = true ->
  exists inv, In inv (elementsToInvert f doc) /\ element inv = p.
Proof.
  intros Hp L.
  exists (mkInversion p (c_color (getComputedStyle doc p))
            (c_backgroundColor (getComputedStyle doc p))).
  split; [|reflexivity].
  unfold elementsToInvert. rewrite in_flat_map. exists p. split; [exact Hp|].
  unfold collectInversion. rewrite L. now left.
Qed.

Lemma elementsToInvert_count doc :
  List.length (elementsToInvert f doc)
  = List.length
      (filter (fun p => isLightOnDark f (c_color (getComputedStyle doc p))
                          (getEffectiveBackgroundColor doc p))
              (elementNodes doc)).
Proof.
  unfold elementsToInvert. induction (elementNodes doc) as [|p l IH];
    [reflexivity|].
  cbn [flat_map filter]. rewrite length_app, IH. unfold collectInversion.
  now destruct (isLightOnDark f _ _).
Qed.

(** ** One inversion *)

Lemma applyInversion_other d inv p c b :
  element inv <> p ->
  HasColors d p c b -> HasColors (applyInversion f d inv) p c b.
Proof.
  intros Hne H. unfold applyInversion.
  assert (p <> element inv) by congruence.
  destruct (isOpaqueDeclaration _); [destruct (lt _ _)|];
    repeat apply HasColors_setStyle_other; assumption.
Qed.

Lemma applyInversion_color d inv c b :
  HasColors d (element inv) c b ->
  exists b', HasColors (applyInversion f d inv) (element inv)
               (Some (invertColor f (originalColor inv))) b'.
Proof.
  intros H. unfold applyInversion.
  pose proof (HasColors_withColor d (element inv)
                (invertColor f (originalColor inv)) c b H) as H1.
  destruct (isOpaqueDeclaration _); [destruct (lt _ _)|]; eauto.
  eexists. eapply HasColors_withBackground. exact H1.
Qed.

Lemma applyInversion_clears d inv c b :
  HasColors d (element inv) c (Some b) ->
  b = black \/ b = transparent ->
  HasColors (applyInversion f d inv) (element inv)
    (Some (invertColor f (originalColor inv))) (Some transparent).
Proof.
  intros H Hb. unfold applyInversion.
  pose proof (HasColors_withColor d (element inv)
                (invertColor f (originalColor inv)) c (Some b) H) as H1.
  rewrite (HasColors_background _ _ _ _ H1). cbn [orElse].
  destruct Hb as [-> | ->].
  - rewrite opaque_black, black_is_dark.
    eapply HasColors_withBackground. exact H1.
  - rewrite opaque_transparent. exact H1.
Qed.

Lemma elementNodes_applyInversion d inv :
  elementNodes (applyInversion f d inv) = elementNodes d.
Proof.
  unfold applyInversion.
  destruct (isOpaqueDeclaration _); [destruct (lt _ _)|];
    now rewrite ?elementNodes_setStyle.
Qed.

(** ** ensureTextVisibility *)

Lemma makeVisible_colors d q p c b :
  HasColors d p c b -> HasColors (makeVisible d q) p c b.
Proof.
  intros H. unfold makeVisible.
  destruct (eqb (c_opacity _) _), (eqb (c_visibility _) _);
    repeat (apply HasColors_setStyle_keeps; [now intros [] |]); exact H.
Qed.

Lemma elementNodes_makeVisible d q :
  elementNodes (makeVisible d q) = elementNodes d.
Proof.
  unfold makeVisible.
  destruct (eqb (c_opacity _) _), (eqb (c_visibility _) _);
    now rewrite ?elementNodes_setStyle.
Qed.

(** ** fixContrastIssues *)

Lemma fixContrast_other d q p c b :
  q <> p -> HasColors d p c b -> HasColors (fixContrast f d q) p c b.
Proof.
  intros Hne H. unfold fixContrast. destruct (lt _ _); [|exact H].
  apply HasColors_setStyle_other; congruence.
Qed.

Lemma fixContrast_black d q p b :
  HasColors d p (Some hexBlack) b ->
  HasColors (fixContrast f d q) p (Some hexBlack) b.
Proof.
  intros H. destruct (list_eq_dec Nat.eq_dec q p) as [->|Hne].
  - unfold fixContrast. destruct (lt _ _); [|exact H].
    eapply HasColors_withColor. exact H.
  - now apply fixContrast_other.
Qed.

Lemma fixContrast_low d p c b :
  lt (contrastOf f d p) (Some CONFIG.COLOR_THRESHOLDS.contrastRatio) = true ->
  HasColors d p c b -> HasColors (fixContrast f d p) p (Some hexBlack) b.
Proof.
  intros Low H. unfold fixContrast. rewrite Low.
  eapply HasColors_withColor. exact H.
Qed.

Lemma fixContrast_styled d q p c b :
  HasColors d p c b -> exists c', HasColors (fixContrast f d q) p c' b.
Proof.
  intros H. destruct (list_eq_dec Nat.eq_dec q p) as [->|Hne].
  - unfold fixContrast. destruct (lt _ _); [|eauto].
    eexists. eapply HasColors_withColor. exact H.
  - exists c. now apply fixContrast_other.
Qed.

Lemma elementNodes_fixContrast d q :
  elementNodes (fixContrast f d q) = elementNodes d.
Proof.
  unfold fixContrast. destruct (lt _ _); now rewrite ?elementNodes_setStyle.
Qed.

End Passes.

(* ================================================================== *)
(** * Ancestors *)

Lemma ancestor_self p : ancestor 0 p = p.
Proof. unfold ancestor. rewrite Nat.sub_0_r. apply firstn_all. Qed.

Lemma ancestor_parent p k :
  ancestor k (removelast p) = ancestor (S k) p.
Proof.
  unfold ancestor. rewrite removelast_firstn_len, firstn_firstn.
  rewrite length_firstn. f_equal.
  generalize (List.length p). intros n. destruct n; simpl; lia.
Qed.

Lemma length_removelast (p : path) :
  List.length (removelast p) = List.length p - 1.
Proof.
  rewrite removelast_firstn_len, length_firstn.
  destruct (List.length p) as [|n]; [reflexivity|].
  cbn [Nat.pred]. rewrite Nat.min_l; lia.
Qed.

Lemma walkUp_none doc n : walkUp doc None n = str "#ffffff".
Proof. now destruct n. Qed.

Lemma walkUp_found doc n : forall p k,
  k < n -> k <= List.length p ->
  isOpaqueDeclaration (backgroundAt doc (ancestor k p)) = true ->
  (forall j, j < k ->
     isOpaqueDeclaration (backgroundAt doc (ancestor j p)) = false) ->
  walkUp doc (Some p) n = backgroundAt doc (ancestor k p).
Proof.
  induction n as [|n IH]; intros p k Hk Hlen Hop Hbelow; [lia|].
  cbn [walkUp]. fold (backgroundAt doc p). destruct k as [|k].
  - rewrite ancestor_self in *. now rewrite Hop.
  - pose proof (Hbelow 0 ltac:(lia)) as H0. rewrite ancestor_self in H0.
    rewrite H0. destruct p as [|i p]; [simpl in Hlen; lia|].
    cbn [parentElement]. rewrite <- ancestor_parent.
    apply IH.
    + lia.
    + rewrite length_removelast. lia.
    + now rewrite ancestor_parent.
    + intros j Hj. rewrite ancestor_parent. apply Hbelow. lia.
Qed.

Lemma walkUp_default doc n : forall p,
  (forall k, k < n -> k <= List.length p ->
     isOpaqueDeclaration (backgroundAt doc (ancestor k p)) = false) ->
  walkUp doc (Some p) n = str "#ffffff".
Proof.
  induction n as [|n IH]; intros p H; [reflexivity|].
  cbn [walkUp]. fold (backgroundAt doc p).
  pose proof (H 0 ltac:(lia) ltac:(lia)) as H0. rewrite ancestor_self in H0.
  rewrite H0. destruct p as [|i p]; [apply walkUp_none|].
  cbn [parentElement]. apply IH. intros k Hk Hlen.
  rewrite ancestor_parent. apply H; [lia|].
  rewrite length_removelast in Hlen. cbn [List.length] in *. lia.
Qed.

Lemma walkUp_total doc n : forall p,
  walkUp doc (Some p) n = str "#ffffff"
  \/ exists k, k < n /\ k <= List.length p
               /\ isOpaqueDeclaration (backgroundAt doc (ancestor k p)) = true
               /\ walkUp doc (Some p) n = backgroundAt doc (ancestor k p).
Proof.
  induction n as [|n IH]; intros p; [now left|].
  cbn [walkUp]. fold (backgroundAt doc p).
  destruct (isOpaqueDeclaration (backgroundAt doc p)) eqn:E.
  - right. exists 0. rewrite ancestor_self. repeat split; auto; lia.
  - destruct p as [|i p]; [left; apply walkUp_none|].
    cbn [parentElement].
    destruct (IH (removelast (i :: p))) as [W|(k & Hk & Hlen & Hop & W)];
      [now left|].
    right. exists (S k). rewrite ancestor_parent in Hop, W.
    rewrite length_removelast in Hlen.
    repeat split; auto; try lia.
    cbn [List.length] in *. lia.
Qed.

(* ================================================================== *)
(** * What the passes do to one element *)

Section PassResults.
Variable f : jsstring -> Color.

Lemma path_eq_dec (p q : path) : p = q \/ p <> q.
Proof. destruct (list_eq_dec Nat.eq_dec p q); auto. Qed.

Lemma elementNodes_invert doc :
  elementNodes (fst (invertColorsForPDF f doc)) = elementNodes doc.
Proof.
  apply (fold_preserves (applyInversion f) elementNodes).
  apply elementNodes_applyInversion.
Qed.

Lemma elementNodes_visibility doc :
  elementNodes (ensureTextVisibility doc) = elementNodes doc.
Proof.
  apply (fold_preserves makeVisible elementNodes).
  apply elementNodes_makeVisible.
Qed.

Lemma styled_has_colors doc p :
  In p (elementNodes doc) -> exists c b, HasColors doc p c b.
Proof.
  intros H. destruct (elementNodes_styled doc p H) as (_ & st & Hst).
  exists (color st), (backgroundColor st), st. auto.
Qed.

(** Every element classified light-on-dark has its colour assigned. *)
Lemma invert_assigns doc p :
  In p (elementNodes doc) -> lightOnDarkAt f doc p = true ->
  exists b,
    HasColors (fst (invertColorsForPDF f doc)) p
      (Some (invertColor f (c_color (getComputedStyle doc p)))) b.
Proof.
  intros Hp L.
  pose proof (fold_hits (applyInversion f) (fun inv => element inv = p)
                (fun d => exists c b, HasColors d p c b)
                (fun d => exists b,
                   HasColors d p
                     (Some (invertColor f (c_color (getComputedStyle doc p))))
                     b)
                (elementsToInvert f doc)) as F.
  destruct (F (fun inv => path_eq_dec (element inv) p)) with (d := doc)
    as (_ & Hit & _).
  - intros d inv _ Hne. split.
    + intros (c & b & H). exists c, b. now apply applyInversion_other.
    + intros (b & H). exists b. now apply applyInversion_other.
  - intros d inv Hin <- HPQ.
    destruct (elementsToInvert_sound f doc inv Hin) as (_ & <- & _).
    destruct HPQ as [(c & b & H)|(b & H)];
      eapply applyInversion_color; exact H.
  - apply Hit; [now apply elementsToInvert_complete|].
    now apply styled_has_colors.
Qed.

(** Scenario C. *)
Lemma invert_yellow_on_black doc p :
  In p (elementNodes doc) -> HasColors doc p (Some yellow) (Some black) ->
  lightOnDarkAt f doc p = true
  /\ HasColors (fst (invertColorsForPDF f doc)) p
       (Some hexBlack) (Some transparent).
Proof.
  intros Hp H.
  assert (L : lightOnDarkAt f doc p = true).
  { unfold lightOnDarkAt.
    rewrite (HasColors_color doc p yellow _ H).
    rewrite (HasColors_effective doc p _ black H (opaque_black)).
    apply yellow_on_black. }
  split; [exact L|].
  pose proof (fold_hits (applyInversion f) (fun inv => element inv = p)
                (fun d => exists c b, HasColors d p c (Some b)
                                      /\ (b = black \/ b = transparent))
                (fun d => HasColors d p (Some hexBlack) (Some transparent))
                (elementsToInvert f doc)) as F.
  destruct (F (fun inv => path_eq_dec (element inv) p)) with (d := doc)
    as (_ & Hit & _).
  - intros d inv _ Hne. split.
    + intros (c & b & H1 & Hb). exists c, b. split; [|exact Hb].
      now apply applyInversion_other.
    + now apply applyInversion_other.
  - intros d inv Hin <- HPQ.
    destruct (elementsToInvert_sound f doc inv Hin) as (_ & E & _).
    rewrite (HasColors_color doc _ yellow _ H) in E.
    rewrite <- (invert_yellow f), <- E.
    destruct HPQ as [(c & b & H1 & Hb)|H1].
    + now apply (applyInversion_clears f d inv c b).
    + apply (applyInversion_clears f d inv _ transparent H1). now right.
  - apply Hit; [now apply elementsToInvert_complete|].
    exists (Some yellow), black. auto.
Qed.

(** An element that is not light-on-dark is left alone by the inversion. *)
Lemma invert_skips doc p c b :
  lightOnDarkAt f doc p = false -> HasColors doc p c b ->
  HasColors (fst (invertColorsForPDF f doc)) p c b.
Proof.
  intros L H.
  pose proof (fold_hits (applyInversion f) (fun inv => element inv = p)
                (fun d => HasColors d p c b) (fun _ => False)
                (elementsToInvert f doc)) as F.
  destruct (F (fun inv => path_eq_dec (element inv) p)) with (d := doc)
    as (_ & _ & Keep).
  - intros d inv _ Hne. split; [|tauto]. now apply applyInversion_other.
  - intros d inv Hin <- _.
    destruct (elementsToInvert_sound f doc inv Hin) as (_ & _ & E).
    unfold lightOnDarkAt in L. congruence.
  - apply Keep; [|exact H]. intros inv Hin <-.
    destruct (elementsToInvert_sound f doc inv Hin) as (_ & _ & E).
    unfold lightOnDarkAt in L. congruence.
Qed.

Lemma visibility_keeps l : forall d p c b,
  HasColors d p c b -> HasColors (fold_left makeVisible l d) p c b.
Proof.
  induction l as [|q l IH]; intros d p c b H; [exact H|].
  cbn [fold_left]. apply IH. now apply makeVisible_colors.
Qed.

Lemma contrast_keeps_black l : forall d p b,
  HasColors d p (Some hexBlack) b ->
  HasColors (fold_left (fixContrast f) l d) p (Some hexBlack) b.
Proof.
  induction l as [|q l IH]; intros d p b H; [exact H|].
  cbn [fold_left]. apply IH. now apply fixContrast_black.
Qed.

Lemma contrast_keeps_element l : forall d p c b,
  HasColors d p c b ->
  exists c', HasColors (fold_left (fixContrast f) l d) p c' b.
Proof.
  induction l as [|q l IH]; intros d p c b H; [now exists c|].
  cbn [fold_left].
  destruct (fixContrast_styled f d q p c b H) as [c' H']. eauto.
Qed.

(** An element whose contrast is low when the last loop reaches it ends
    with black text. *)
Lemma contrast_forces doc pre p post :
  elementNodes doc = pre ++ p :: post ->
  lt (contrastOf f (fold_left (fixContrast f) pre doc) p)
     (Some CONFIG.COLOR_THRESHOLDS.contrastRatio) = true ->
  exists b, HasColors (fixContrastIssues f doc) p (Some hexBlack) b.
Proof.
  intros E Low. unfold fixContrastIssues. rewrite E, fold_left_app.
  cbn [fold_left].
  assert (Hp : In p (elementNodes doc)) by (rewrite E; apply in_elt).
  destruct (styled_has_colors doc p Hp) as (c & b & H).
  destruct (contrast_keeps_element pre doc p c b H) as [c' H'].
  exists b. apply contrast_keeps_black.
  now apply (fixContrast_low f _ p c' b).
Qed.

Lemma gray_contrast doc p :
  HasColors doc p (Some gray100) (Some gray120) ->
  lt (contrastOf f doc p) (Some CONFIG.COLOR_THRESHOLDS.contrastRatio) = true.
Proof.
  intros H. unfold contrastOf.
  rewrite (HasColors_color doc p gray100 _ H).
  rewrite (HasColors_effective doc p _ gray120 H opaque_gray120).
  apply gray_contrast_low.
Qed.

Lemma gray_not_inverted doc p :
  HasColors doc p (Some gray100) (Some gray120) ->
  lightOnDarkAt f doc p = false.
Proof.
  intros H. unfold lightOnDarkAt.
  rewrite (HasColors_color doc p gray100 _ H).
  rewrite (HasColors_effective doc p _ gray120 H opaque_gray120).
  apply gray_not_light_on_dark.
Qed.

(** Scenario D, through the whole of [processStylesForPDF]. *)
Lemma gray_forced doc p :
  In p (elementNodes doc) ->
  HasColors doc p (Some gray100) (Some gray120) ->
  HasColors (processStylesForPDF f doc) p (Some hexBlack) (Some gray120).
Proof.
  intros Hp H. unfold processStylesForPDF.
  set (d1 := fst (invertColorsForPDF f doc)).
  assert (H1 : HasColors d1 p (Some gray100) (Some gray120))
    by (apply invert_skips; [now apply gray_not_inverted | exact H]).
  set (d2 := ensureTextVisibility d1).
  assert (H2 : HasColors d2 p (Some gray100) (Some gray120))
    by (apply visibility_keeps; exact H1).
  assert (Hp2 : In p (elementNodes d2))
    by (unfold d2, d1; now rewrite elementNodes_visibility, elementNodes_invert).
  pose proof (fold_hits (fixContrast f) (fun q => q = p)
                (fun d => HasColors d p (Some gray100) (Some gray120))
                (fun d => HasColors d p (Some hexBlack) (Some gray120))
                (elementNodes d2)) as F.
  destruct (F (fun q => path_eq_dec q p)) with (d := d2) as (_ & Hit & _).
  - intros d q _ Hne. split; now apply fixContrast_other.
  - intros d q _ -> [HP|HQ].
    + apply (fixContrast_low f d p (Some gray100)); [|exact HP].
      now apply gray_contrast.
    + now apply fixContrast_black.
  - apply Hit; [now exists p | exact H2].
Qed.

End PassResults.

(* ================================================================== *)
(** * Properties of the whitespace normalizer *)

(** C1. The whitespace normalizer is idempotent: for every tree [T], a
    second [normalizeWhitespace] pass over the result of the first one
    performs no mutation (every fix it records finds its space already
    there), so the tree after two passes equals the tree after one pass. *)
Theorem C1_normalizeWhitespace_idempotent (T : Node) :
  normalizeWhitespace (normalizeWhitespace T) = normalizeWhitespace T
  /\ Forall (fun fx => applyFix (normalizeWhitespace T) fx
                       = normalizeWhitespace T)
            (nodesToFix (normalizeWhitespace T)).
Proof.
  rewrite !normalizeWhitespace_norm. split.
  - apply norm_idempotent.
  - apply Forall_forall. intros fx. apply second_pass_fix_is_void.
Qed.

(** C2, as stated, fails: on [<span>Hello</span><em>world</em>] neither
    text leaf gains a boundary space, and the rendered text of the result
    is still "Helloworld". *)
Lemma C2_counterexample :
  ~ (endsWithSpace
       (getTextContent (normalizeWhitespace scenarioA_tree) [0; 0]) = true
     \/ startsWithSpace
          (getTextContent (normalizeWhitespace scenarioA_tree) [1; 0]) = true)
  /\ renderedText (normalizeWhitespace scenarioA_tree) = str "Helloworld".
Proof.
  split; [|vm_compute; reflexivity].
  intros [H|H]; vm_compute in H; discriminate.
Qed.

(** C2, amended. For the input tree [<span>Hello</span><em>world</em>]
    one pass changes nothing: each text leaf is the only child of its
    element, the decision procedure of a leaf inspects only its immediate
    previous and next siblings, and here there are none.  The same holds
    for any two elements that each wrap a single text leaf. *)
Theorem C2_wrapped_leaves_unchanged t st t1 st1 s1 t2 st2 s2 :
  normalizeWhitespace
    (Element t st [Element t1 st1 [Text s1]; Element t2 st2 [Text s2]])
  = Element t st [Element t1 st1 [Text s1]; Element t2 st2 [Text s2]]
  /\ normalizeWhitespace scenarioA_tree = scenarioA_tree.
Proof.
  rewrite !normalizeWhitespace_norm. split.
  - cbn [norm]. now rewrite !normText_no_siblings.
  - unfold scenarioA_tree, DIV, SPAN, EM, T. cbn [norm].
    now rewrite !normText_no_siblings.
Qed.

Lemma nth_error_next {A} (pre : list A) x y r :
  nth_error (pre ++ x :: y :: r) (S (List.length pre)) = Some y.
Proof. induction pre; simpl; auto. Qed.

(** C9. When two text leaves are adjacent siblings and the two
    characters that meet at their shared boundary are not white space, one
    pass appends a space to the first leaf and prepends a space to the
    second one, because every decision is taken before any fix is
    applied: the boundary then carries two consecutive spaces.  [u] and
    [v] are the spaces the same pass may add at the outer ends of the two
    leaves. *)
Theorem C9_adjacent_text_leaves_double_space
        root p t st pre x c1 c2 y post :
  nodeAt root p
  = Some (Element t st (pre ++ Text (x ++ [c1]) :: Text (c2 :: y) :: post)) ->
  isWhiteSpace c1 = false -> isWhiteSpace c2 = false ->
  exists u v,
    getTextContent (normalizeWhitespace root) (p ++ [List.length pre])
    = u ++ (x ++ [c1]) ++ [space]
    /\ getTextContent (normalizeWhitespace root) (p ++ [S (List.length pre)])
       = space :: (c2 :: y) ++ v
    /\ (u = [] \/ u = [space]) /\ (v = [] \/ v = [space]).
Proof.
  intros Hp W1 W2.
  set (s1 := x ++ [c1]) in *. set (s2 := c2 :: y) in *.
  assert (N1 : s1 <> []) by (unfold s1; now destruct x).
  assert (E1 : endsWithSpace s1 = false)
    by (unfold s1; now rewrite endsWithSpace_snoc).
  assert (N2 : s2 <> []) by discriminate.
  assert (E2 : startsWithSpace s2 = false) by exact W2.
  clearbody s1 s2.
  set (cs := pre ++ Text s1 :: Text s2 :: post) in *.
  set (i := List.length pre).
  assert (Sib : forall j, siblings root (p ++ [j]) = Some (cs, j))
    by (intros j; now apply (siblings_snoc p root t st cs j)).
  assert (At : forall j, nodeAt root (p ++ [j]) = nth_error cs j)
    by (intros j; now apply (nodeAt_snoc p root t st cs j)).
  assert (C1 : nth_error cs i = Some (Text s1)) by apply nth_error_here.
  assert (C2 : nth_error cs (S i) = Some (Text s2)) by apply nth_error_next.
  rewrite normalizeWhitespace_norm. unfold getTextContent.
  rewrite !nodeAt_norm by (now destruct p).
  unfold previousSibling, nextSibling. rewrite !Sib, !At, C1, C2.
  cbn [option_map norm]. unfold normText.
  rewrite (blank_of_last s1 N1 E1), (blank_of_first s2 N2 E2).
  cbn [trailOf leadOf]. rewrite E1, E2. cbn [negb]. unfold fixText.
  assert (L1 : forall a : bool, exists u : jsstring,
             addTrailing (if a then addLeading s1 else s1) = u ++ s1 ++ [space]
             /\ (u = [] \/ u = [space])).
  { intros a. unfold addTrailing, addLeading.
    destruct a; [destruct (negb (startsWithSpace s1))|].
    - rewrite (endsWithSpace_cons space s1 N1), E1. exists [space]. auto.
    - rewrite E1. exists []. auto.
    - rewrite E1. exists []. auto. }
  assert (L2 : forall b : bool, exists v : jsstring,
             (if b then addTrailing (addLeading s2) else addLeading s2)
             = space :: s2 ++ v /\ (v = [] \/ v = [space])).
  { intros b. unfold addTrailing, addLeading. rewrite E2. cbn [negb].
    destruct b; [destruct (negb (endsWithSpace (space :: s2)))|].
    - exists [space]. auto.
    - exists []. rewrite app_nil_r. auto.
    - exists []. rewrite app_nil_r. auto. }
  destruct (L1 (leadOf match i with 0 => None | S j => nth_error cs j end))
    as (u & Eu & Hu).
  destruct (L2 (trailOf (nth_error cs (S (S i))))) as (v & Ev & Hv).
  exists u, v. rewrite Eu, Ev. auto.
Qed.

(** C9 at a concrete tree: [Hello] and [world] as adjacent text nodes end
    as [Hello ] and [ world]. *)
Lemma C9_witness :
  (isWhiteSpace 111 = false /\ isWhiteSpace 119 = false)
  /\ exists u v,
    getTextContent (normalizeWhitespace (DIV [T "Hello"; T "world"])) [0]
    = u ++ str "Hello" ++ [space]
    /\ getTextContent (normalizeWhitespace (DIV [T "Hello"; T "world"])) [1]
       = space :: str "world" ++ v
    /\ (u = [] \/ u = [space]) /\ (v = [] \/ v = [space]).
Proof.
  split; [split; reflexivity|].
  apply (C9_adjacent_text_leaves_double_space
           (DIV [T "Hello"; T "world"]) [] (str "DIV") noStyle []
           (str "Hell") 111%N 119%N (str "orld") []);
    reflexivity.
Defined.

(* ================================================================== *)
(** * Properties of the colour utilities *)

(** C3. [parseColor] maps the string ['transparent'] to opaque white, but
    it maps ['rgba(0, 0, 0, 0)'] to black: the rgb()/rgba() pattern is
    tried first and matches, so the branch that would answer white for
    that string is never reached. *)
Theorem C3_transparent_forms f :
  parseColor f (str "transparent") = white
  /\ parseColor f (str "rgba(0, 0, 0, 0)") = (Some 0%Z, Some 0%Z, Some 0%Z)
  /\ parseColor f (str "rgba(0, 0, 0, 0)") <> white.
Proof.
  repeat split; try (vm_compute; reflexivity).
  vm_compute. discriminate.
Qed.

(** C10, as stated for all integer channels, fails.  A negative channel
    is not matched by the pattern, whose channels are runs of digits: the
    string is handed to the platform's colour resolution, and the result
    is what that resolution gives.  A channel above 2^53 is returned
    rounded to a double: 9007199254740993 comes back as
    9007199254740992. *)
Lemma C10_counterexample :
  (forall f, parseColor f (str "rgba(-1, 0, 0, 1)")
             = f (str "rgba(-1, 0, 0, 1)"))
  /\ (forall f, parseColor f (str "rgba(9007199254740993, 0, 0, 1)")
                = (Some 9007199254740992%Z, Some 0%Z, Some 0%Z))
  /\ ~ (forall f (r g b : N) (a : jsstring),
          parseColor f
            (str "rgba(" ++ decimal r ++ str ", " ++ decimal g ++ str ", "
               ++ decimal b ++ str ", " ++ a ++ str ")")
          = (Some (Z.of_N r), Some (Z.of_N g), Some (Z.of_N b))).
Proof.
  split; [intros f; vm_compute; reflexivity|].
  split; [intros f; vm_compute; reflexivity|].
  intros H.
  specialize (H resolveNothing 9007199254740993%N 0%N 0%N (str "1")).
  vm_compute in H. discriminate.
Qed.

(** C10. [parseColor] discards the alpha channel: for all channels
    [r], [g], [b] below 2^53 written as decimal numerals and any alpha
    text [a], [parseColor("rgba(r, g, b, a)")] is the triple [(r, g, b)].
    In particular the fully transparent ['rgba(0, 0, 0, 0)'] is read as
    black, because the rgb()/rgba() pattern is tried before the branch for
    transparent colours. *)
Theorem C10_rgba_alpha_discarded f (r g b : N) (a : jsstring) :
  (r < 2 ^ 53)%N -> (g < 2 ^ 53)%N -> (b < 2 ^ 53)%N ->
  parseColor f
    (str "rgba(" ++ decimal r ++ str ", " ++ decimal g ++ str ", "
       ++ decimal b ++ str ", " ++ a ++ str ")")
  = (Some (Z.of_N r), Some (Z.of_N g), Some (Z.of_N b)).
Proof.
  intros Hr Hg Hb.
  change (str ", " ++ a ++ str ")") with (44%N :: 32%N :: a ++ str ")").
  rewrite (parseColor_rgba f (decimal r) (decimal g) (decimal b) 44%N
             (32%N :: a ++ str ")")
             (decimal_numeral r) (decimal_numeral g) (decimal_numeral b)
             eq_refl).
  rewrite !digitsValue_decimal.
  now rewrite !toDouble_exact.
Qed.

(** C10 at ['rgba(255, 128, 0, 0.5)']. *)
Lemma C10_witness :
  parseColor resolveNothing (str "rgba(255, 128, 0, 0.5)")
  = (Some 255%Z, Some 128%Z, Some 0%Z).
Proof.
  apply (C10_rgba_alpha_discarded resolveNothing 255 128 0 (str "0.5"));
    reflexivity.
Defined.

Section LuminanceClaim.
Local Open Scope R_scope.

Lemma linearize_spec v : linearize v = specChannel (v / 255).
Proof. reflexivity. Qed.

(** C6. [calculateLuminance] is the WCAG relative-luminance formula and
    is bounded: for every triple with channels in [0,255] the result is
    a number in [0,1]; black has luminance 0 and white has luminance 1.
    Numbers are real numbers here. *)
Theorem C6_luminance_wcag_bounded :
  (forall r g b : Z,
      (0 <= r <= 255)%Z -> (0 <= g <= 255)%Z -> (0 <= b <= 255)%Z ->
      calculateLuminance (Some r, Some g, Some b)
      = Some (specLuminance (IZR r / 255) (IZR g / 255) (IZR b / 255))
      /\ 0 <= specLuminance (IZR r / 255) (IZR g / 255) (IZR b / 255) <= 1)
  /\ calculateLuminance (Some 0%Z, Some 0%Z, Some 0%Z) = Some 0
  /\ calculateLuminance (Some 255%Z, Some 255%Z, Some 255%Z) = Some 1.
Proof.
  split; [|split].
  - intros r g b Hr Hg Hb. split; [reflexivity|].
    unfold specLuminance. rewrite <- !linearize_spec.
    assert (B : forall z, (0 <= z <= 255)%Z -> 0 <= IZR z <= 255)
      by (intros z [L U]; split; apply IZR_le; assumption).
    pose proof (linearize_bounds _ (B r Hr)).
    pose proof (linearize_bounds _ (B g Hg)).
    pose proof (linearize_bounds _ (B b Hb)). lra.
  - unfold calculateLuminance. rewrite linearize_0. f_equal. lra.
  - unfold calculateLuminance. rewrite linearize_255. f_equal. lra.
Qed.

(** C6 at the colour of Scenario C. *)
Lemma C6_witness :
  ((0 <= 255 <= 255)%Z /\ (0 <= 0 <= 255)%Z)
  /\ calculateLuminance (Some 255%Z, Some 255%Z, Some 0%Z)
     = Some (specLuminance (255 / 255) (255 / 255) (0 / 255))
  /\ 0 <= specLuminance (255 / 255) (255 / 255) (0 / 255) <= 1.
Proof.
  split; [lia|].
  apply (proj1 C6_luminance_wcag_bounded 255%Z 255%Z 0%Z); lia.
Defined.

End LuminanceClaim.

(* ================================================================== *)
(** * Properties of the contrast normalizer *)

(** C7. [getEffectiveBackgroundColor] walks upward from the element
    itself and returns the first background declaration that is not
    transparent; it looks at no more than [maxDepth = 10] elements (the
    element and nine ancestors) and answers white when none of them has
    such a declaration, whether the root was reached or the bound was hit.
    It always returns: either white or one of the declarations it looked
    at.  "Not transparent" is the test of the source: a non-empty value
    other than ['transparent'] and ['rgba(0, 0, 0, 0)']. *)
Theorem C7_effective_background doc p :
  (forall k, k < 10 -> k <= List.length p ->
     isOpaqueDeclaration (backgroundAt doc (ancestor k p)) = true ->
     (forall j, j < k ->
        isOpaqueDeclaration (backgroundAt doc (ancestor j p)) = false) ->
     getEffectiveBackgroundColor doc p = backgroundAt doc (ancestor k p))
  /\ ((forall k, k < 10 -> k <= List.length p ->
         isOpaqueDeclaration (backgroundAt doc (ancestor k p)) = false) ->
      getEffectiveBackgroundColor doc p = str "#ffffff")
  /\ (getEffectiveBackgroundColor doc p = str "#ffffff"
      \/ exists k, k < 10 /\ k <= List.length p
           /\ isOpaqueDeclaration (backgroundAt doc (ancestor k p)) = true
           /\ getEffectiveBackgroundColor doc p
              = backgroundAt doc (ancestor k p)).
Proof.
  unfold getEffectiveBackgroundColor. change maxDepth with 10.
  repeat split.
  - intros k. apply walkUp_found.
  - apply walkUp_default.
  - apply walkUp_total.
Qed.

(** C7 at [deepTree]: nine levels below the root the black background is
    found; ten levels below it the bound is hit and the answer is white. *)
Lemma C7_witness :
  getEffectiveBackgroundColor deepTree (repeat 0 9) = black
  /\ getEffectiveBackgroundColor deepTree (repeat 0 10) = str "#ffffff".
Proof.
  split.
  - apply (proj1 (C7_effective_background deepTree (repeat 0 9)) 9);
      [lia | simpl; lia | reflexivity |].
    intros j Hj.
    do 9 (destruct j as [|j]; [reflexivity|]). lia.
  - apply (proj1 (proj2 (C7_effective_background deepTree (repeat 0 10)))).
    intros k Hk _.
    do 10 (destruct k as [|k]; [reflexivity|]). lia.
Defined.

(** C4 (Scenario C). An element the pass visits, with declared text colour
    [rgb(255,255,0)] on its own declared background [rgb(0,0,0)], is
    classified light-on-dark (its text luminance is strictly greater than
    its background luminance); since that luminance also exceeds the light
    threshold 0.5 the text colour is rewritten to [#000000], and the
    element's own dark background is cleared to [transparent].  Both
    declarations are still in place at the end of [processStylesForPDF]. *)
Theorem C4_yellow_on_black_inverted f doc p :
  In p (elementNodes doc) ->
  HasColors doc p (Some yellow) (Some black) ->
  isLightOnDark f (c_color (getComputedStyle doc p))
    (getEffectiveBackgroundColor doc p) = true
  /\ (exists lt lb,
        calculateLuminance (parseColor f yellow) = Some lt
        /\ calculateLuminance (parseColor f black) = Some lb
        /\ (lb < lt)%R /\ (CONFIG.COLOR_THRESHOLDS.lightThreshold < lt)%R)
  /\ invertColor f yellow = str "#000000"
  /\ HasColors (fst (invertColorsForPDF f doc)) p
       (Some (str "#000000")) (Some (str "transparent"))
  /\ HasColors (processStylesForPDF f doc) p
       (Some (str "#000000")) (Some (str "transparent")).
Proof.
  intros Hp H.
  destruct (invert_yellow_on_black f doc p Hp H) as [L Done].
  split; [exact L|]. split.
  { exists 0.9278%R, 0%R. rewrite luminance_yellow, luminance_black.
    unfold CONFIG.COLOR_THRESHOLDS.lightThreshold. repeat split; lra. }
  split; [apply invert_yellow|]. split; [exact Done|].
  unfold processStylesForPDF.
  apply (contrast_keeps_black f), visibility_keeps. exact Done.
Qed.

(** C4 at [scenarioC_tree]. *)
Lemma C4_witness :
  (In [0] (elementNodes scenarioC_tree)
   /\ HasColors scenarioC_tree [0] (Some yellow) (Some black))
  /\ HasColors (fst (invertColorsForPDF resolveNothing scenarioC_tree)) [0]
       (Some (str "#000000")) (Some (str "transparent")).
Proof.
  assert (Hin : In [0] (elementNodes scenarioC_tree)) by (left; reflexivity).
  assert (Hst : HasColors scenarioC_tree [0] (Some yellow) (Some black))
    by (exists (styled yellow black); repeat split; reflexivity).
  split; [now split|].
  apply (C4_yellow_on_black_inverted resolveNothing scenarioC_tree [0] Hin Hst).
Defined.

(** C8, as stated, fails.  The only count the pass produces is the number
    [invertColorsForPDF] writes to the console.  On [scenarioD_tree] that
    number is 0 while [processStylesForPDF] rewrites the colour of one
    element; on [scenarioE_tree] it is 1 while [invertColorsForPDF] leaves
    the colour of every element as it was. *)
Lemma C8_counterexample :
  (snd (invertColorsForPDF resolveNothing scenarioD_tree) = 0
   /\ rewrittenCount scenarioD_tree
        (processStylesForPDF resolveNothing scenarioD_tree) = 1)
  /\ (snd (invertColorsForPDF resolveNothing scenarioE_tree) = 1
      /\ rewrittenCount scenarioE_tree
           (fst (invertColorsForPDF resolveNothing scenarioE_tree)) = 0)
  /\ ~ (forall doc,
          snd (invertColorsForPDF resolveNothing doc)
          = rewrittenCount doc (processStylesForPDF resolveNothing doc)).
Proof.
  assert (Hin : In [0] (elementNodes scenarioD_tree)) by (left; reflexivity).
  assert (Hst : HasColors scenarioD_tree [0] (Some gray100) (Some gray120))
    by (exists (styled gray100 gray120); repeat split; reflexivity).
  assert (Zero : snd (invertColorsForPDF resolveNothing scenarioD_tree) = 0).
  { unfold invertColorsForPDF. cbn [snd]. rewrite elementsToInvert_count.
    change (elementNodes scenarioD_tree) with [[0]]. cbn [filter].
    fold (lightOnDarkAt resolveNothing scenarioD_tree [0]).
    now rewrite (gray_not_inverted resolveNothing scenarioD_tree [0] Hst). }
  assert (One : rewrittenCount scenarioD_tree
                  (processStylesForPDF resolveNothing scenarioD_tree) = 1).
  { unfold rewrittenCount.
    change (elementNodes scenarioD_tree) with [[0]]. cbn [filter].
    destruct (gray_forced resolveNothing scenarioD_tree [0] Hin Hst)
      as (st & E & Hc & _).
    unfold colorAt at 2. rewrite E, Hc. reflexivity. }
  assert (HinE : In [0] (elementNodes scenarioE_tree)) by (left; reflexivity).
  assert (LE : lightOnDarkAt resolveNothing scenarioE_tree [0] = true)
    by apply gray120_on_black.
  split; [now split|]. split.
  - split.
    + unfold invertColorsForPDF. cbn [snd]. rewrite elementsToInvert_count.
      change (elementNodes scenarioE_tree) with [[0]]. cbn [filter].
      fold (lightOnDarkAt resolveNothing scenarioE_tree [0]).
      now rewrite LE.
    + unfold rewrittenCount.
      change (elementNodes scenarioE_tree) with [[0]]. cbn [filter].
      destruct (invert_assigns resolveNothing scenarioE_tree [0] HinE LE)
        as (b & st & E & Hc & _).
      unfold colorAt at 2. rewrite E, Hc.
      change (c_color (getComputedStyle scenarioE_tree [0])) with gray120.
      rewrite invert_gray120. reflexivity.
  - intros All. specialize (All scenarioD_tree). rewrite Zero, One in All.
    discriminate.
Qed.

(** C8, amended. The pass returns no report.  The only count it produces
    is the number [invertColorsForPDF] writes to the console: the number
    of visited elements classified light-on-dark.  Each of them has its
    text colour assigned, to [#000000] when the luminance of the original
    colour exceeds the light threshold and to the original colour again
    otherwise.  Rewrites made afterwards by [fixContrastIssues] are not
    counted. *)
Theorem C8_logged_count f doc :
  snd (invertColorsForPDF f doc)
  = List.length
      (filter (fun p => isLightOnDark f (c_color (getComputedStyle doc p))
                          (getEffectiveBackgroundColor doc p))
              (elementNodes doc))
  /\ (forall p,
        In p (elementNodes doc) ->
        isLightOnDark f (c_color (getComputedStyle doc p))
          (getEffectiveBackgroundColor doc p) = true ->
        colorAt (fst (invertColorsForPDF f doc)) p
        = Some (invertColor f (c_color (getComputedStyle doc p)))).
Proof.
  split; [apply elementsToInvert_count|].
  intros p Hp L.
  destruct (invert_assigns f doc p Hp L) as (b & st & Hst & Hc & _).
  unfold colorAt. now rewrite Hst.
Qed.

(** C8 (amended) at [scenarioC_tree]: one element is counted and its
    colour is assigned. *)
Lemma C8_witness :
  (In [0] (elementNodes scenarioC_tree)
   /\ isLightOnDark resolveNothing
        (c_color (getComputedStyle scenarioC_tree [0]))
        (getEffectiveBackgroundColor scenarioC_tree [0]) = true)
  /\ colorAt (fst (invertColorsForPDF resolveNothing scenarioC_tree)) [0]
     = Some (invertColor resolveNothing
               (c_color (getComputedStyle scenarioC_tree [0]))).
Proof.
  assert (Hin : In [0] (elementNodes scenarioC_tree)) by (left; reflexivity).
  assert (L : isLightOnDark resolveNothing
                (c_color (getComputedStyle scenarioC_tree [0]))
                (getEffectiveBackgroundColor scenarioC_tree [0]) = true)
    by apply yellow_on_black.
  split; [now split|].
  apply (proj2 (C8_logged_count resolveNothing scenarioC_tree) [0] Hin L).
Defined.


(* ================================================================== *)
(** * More about the whitespace normalizer *)

Lemma trim_addLeading s : trim (addLeading s) = trim s.
Proof. unfold addLeading. now destruct (negb (startsWithSpace s)). Qed.

Lemma trim_addTrailing s : trim (addTrailing s) = trim s.
Proof.
  unfold addTrailing. destruct (negb (endsWithSpace s)); [|reflexivity].
  apply trim_snoc_space.
Qed.

Lemma trim_normText a b s : trim (normText a b s) = trim s.
Proof.
  unfold normText, fixText. destruct (blank s); [reflexivity|].
  destruct (leadOf a), (trailOf b);
    now rewrite ?trim_addTrailing, ?trim_addLeading.
Qed.

Lemma mapText_trim_norm x : forall a b,
  mapText trim (norm a b x) = mapText trim x.
Proof.
  induction x as [s|t st cs IH|d] using Node_ind; intros a b.
  - cbn [norm mapText]. now rewrite trim_normText.
  - rewrite norm_Element. cbn [mapText]. f_equal.
    generalize (@None Node) as prev.
    induction IH as [|c r Hc _ IHr]; intros prev; [reflexivity|].
    cbn [normKids map]. now rewrite Hc, IHr.
  - reflexivity.
Qed.

(** X1. The pass touches nothing but the white space at the two ends of
    text nodes: with every text node trimmed, the tree after the pass is
    the tree before it (same elements, tags, styles, other nodes, order,
    and the same text between the first and the last visible character
    of every text node). *)
Theorem X1_only_boundary_whitespace_changes (T : Node) :
  mapText trim (normalizeWhitespace T) = mapText trim T.
Proof. rewrite normalizeWhitespace_norm. apply mapText_trim_norm. Qed.

Lemma addLeading_shape s :
  exists u : jsstring, addLeading s = u ++ s /\ (u = [] \/ u = [space]).
Proof.
  unfold addLeading. destruct (negb (startsWithSpace s));
    [exists [space] | exists []]; auto.
Qed.

Lemma addTrailing_shape s :
  exists v : jsstring, addTrailing s = s ++ v /\ (v = [] \/ v = [space]).
Proof.
  unfold addTrailing. destruct (negb (endsWithSpace s));
    [exists [space] | exists []; rewrite app_nil_r]; auto.
Qed.

Lemma fixText_shape a b s :
  exists u v : jsstring,
    fixText a b s = u ++ s ++ v
    /\ (u = [] \/ u = [space]) /\ (v = [] \/ v = [space]).
Proof.
  unfold fixText.
  assert (H1 : exists u : jsstring,
             (if a then addLeading s else s) = u ++ s
             /\ (u = [] \/ u = [space])).
  { destruct a; [apply addLeading_shape | exists []; auto]. }
  destruct H1 as (u & -> & Hu).
  assert (H2 : exists v : jsstring,
             (if b then addTrailing (u ++ s) else u ++ s) = (u ++ s) ++ v
             /\ (v = [] \/ v = [space])).
  { destruct b; [apply addTrailing_shape | exists []; rewrite app_nil_r; auto]. }
  destruct H2 as (v & -> & Hv).
  exists u, v. rewrite <- app_assoc. auto.
Qed.

Lemma normText_shape a b s :
  exists u v : jsstring,
    normText a b s = u ++ s ++ v
    /\ (u = [] \/ u = [space]) /\ (v = [] \/ v = [space])
    /\ (blank s = true -> u = [] /\ v = []).
Proof.
  unfold normText. destruct (blank s).
  - exists [], []. rewrite app_nil_r. auto.
  - destruct (fixText_shape (leadOf a) (trailOf b) s) as (u & v & E & Hu & Hv).
    exists u, v. repeat split; auto; discriminate.
Qed.

(** X2. The pass never removes or rewrites a character: the content of
    every text node after the pass is its content before, with at most
    one space put in front and at most one space put behind; a text node
    that is empty or all white space is left exactly as it was. *)
Theorem X2_at_most_one_space_each_end (root : Node) (p : path) :
  exists u v : jsstring,
    getTextContent (normalizeWhitespace root) p
    = u ++ getTextContent root p ++ v
    /\ (u = [] \/ u = [space]) /\ (v = [] \/ v = [space])
    /\ (isEmpty (getTextContent root p)
        || isEmpty (trim (getTextContent root p)) = false
        \/ (u = [] /\ v = [])).
Proof.
  rewrite normalizeWhitespace_norm.
  destruct p as [|i q].
  - exists [], []. rewrite app_nil_r. unfold getTextContent. cbn [nodeAt].
    destruct root; cbn [norm]; rewrite ?normText_no_siblings;
      repeat split; auto.
  - rewrite getTextContent_norm by discriminate. unfold getTextContent.
    destruct (nodeAt root (i :: q)) as [[s|t st cs|d]|];
      try (exists [], []; repeat split; now auto).
    destruct (normText_shape (previousSibling root (i :: q))
                (nextSibling root (i :: q)) s) as (u & v & E & Hu & Hv & Hb).
    exists u, v. repeat split; auto.
    fold (blank s). destruct (blank s); auto.
Qed.

Lemma includes_In l s : includes l s = true <-> In s l.
Proof.
  unfold includes. rewrite existsb_exists. split.
  - intros (x & Hx & E). unfold eqb in E.
    destruct (list_eq_dec N.eq_dec s x); [now subst | discriminate].
  - intros H. exists s. split; [exact H|]. unfold eqb.
    now destruct (list_eq_dec N.eq_dec s s).
Qed.

Lemma leadOf_breaksFlow o : breaksFlow o -> leadOf o = false.
Proof.
  destruct o as [[s|t st cs|d]|]; unfold breaksFlow, leadOf; try tauto.
  intros H. apply includes_In in H. now rewrite H.
Qed.

Lemma trailOf_breaksFlow o : breaksFlow o -> trailOf o = false.
Proof.
  destruct o as [[s|t st cs|d]|]; unfold breaksFlow, trailOf; try tauto.
  intros H. apply includes_In in H. now rewrite H.
Qed.

Lemma leadOf_inline o : inlineElement o -> leadOf o = true.
Proof.
  destruct o as [[s|t st cs|d]|]; unfold inlineElement, leadOf; try tauto.
  intros H. destruct (includes blockElements (toLowerCase t)) eqn:E;
    [|reflexivity].
  apply includes_In in E. contradiction.
Qed.

Lemma trailOf_inline o : inlineElement o -> trailOf o = true.
Proof.
  destruct o as [[s|t st cs|d]|]; unfold inlineElement, trailOf; try tauto.
  intros H. destruct (includes blockElements (toLowerCase t)) eqn:E;
    [|reflexivity].
  apply includes_In in E. contradiction.
Qed.

(** X3. No space is inserted at a block boundary: a text node whose
    neighbours on both sides are block-level elements (div, p, h1-h6, ul,
    ol, li, blockquote, pre, hr, table, tr, td, th, in any letter case),
    nodes that are neither text nor element, or missing, keeps its
    content. *)
Theorem X3_block_boundaries_get_no_space root p s :
  nodeAt root p = Some (Text s) ->
  breaksFlow (previousSibling root p) ->
  breaksFlow (nextSibling root p) ->
  getTextContent (normalizeWhitespace root) p = s.
Proof.
  intros Hs Hp Hn. rewrite normalizeWhitespace_norm.
  destruct p as [|i q].
  - cbn [nodeAt] in Hs. injection Hs as ->. unfold getTextContent.
    cbn [nodeAt norm]. apply normText_no_siblings.
  - rewrite getTextContent_norm by discriminate. rewrite Hs.
    unfold normText, fixText.
    rewrite (leadOf_breaksFlow _ Hp), (trailOf_breaksFlow _ Hn).
    now destruct (blank s).
Qed.

(** X3 at [<DIV></DIV>note<p></p>]. *)
Lemma X3_witness :
  getTextContent
    (normalizeWhitespace
       (DIV [DIV []; T "note"; Element (str "p") noStyle []])) [1]
  = str "note".
Proof.
  apply (X3_block_boundaries_get_no_space
           (DIV [DIV []; T "note"; Element (str "p") noStyle []]) [1]
           (str "note") eq_refl).
  - cbn. now left.
  - cbn. right. now left.
Defined.

(** X4. Next to an inline element the space is guaranteed: after the
    pass, a text node with visible content starts with white space if its
    previous sibling is an element that is not block-level, and ends with
    white space if its next sibling is one. *)
Theorem X4_inline_neighbours_get_a_space root p s :
  nodeAt root p = Some (Text s) ->
  isEmpty s || isEmpty (trim s) = false ->
  (inlineElement (previousSibling root p) ->
   startsWithSpace (getTextContent (normalizeWhitespace root) p) = true)
  /\ (inlineElement (nextSibling root p) ->
      endsWithSpace (getTextContent (normalizeWhitespace root) p) = true).
Proof.
  intros Hs Hb. rewrite normalizeWhitespace_norm.
  destruct p as [|i q]; [split; intros []|].
  rewrite getTextContent_norm by discriminate. rewrite Hs.
  unfold normText. fold (blank s) in Hb. rewrite Hb. split; intros H.
  - rewrite (leadOf_inline _ H). apply fixText_starts.
  - rewrite (trailOf_inline _ H). apply fixText_ends.
Qed.

(** X4 at [Hello<em>world</em>]. *)
Lemma X4_witness :
  inlineElement (nextSibling (DIV [T "Hello"; EM [T "world"]]) [0])
  /\ endsWithSpace
       (getTextContent
          (normalizeWhitespace (DIV [T "Hello"; EM [T "world"]])) [0]) = true.
Proof.
  assert (H : inlineElement (nextSibling (DIV [T "Hello"; EM [T "world"]]) [0])).
  { cbn. intuition discriminate. }
  split; [exact H|].
  apply (proj2 (X4_inline_neighbours_get_a_space
                  (DIV [T "Hello"; EM [T "world"]]) [0] (str "Hello")
                  eq_refl eq_refl) H).
Defined.

(* ================================================================== *)
(** * File names *)

Lemma replaceUnsafe_units s :
  Forall (fun c => isAlnum c || (c =? 95)%N = true) (replaceUnsafe s).
Proof.
  induction s as [|c s IH]; constructor; [|exact IH].
  destruct (isAlnum c) eqn:E; [now rewrite E | reflexivity].
Qed.

Lemma collapse_Forall (P : N -> Prop) s :
  Forall P s -> Forall P (collapseUnderscores s).
Proof.
  induction 1 as [|c r Hc Hr IH]; cbn [collapseUnderscores]; [constructor|].
  destruct ((c =? underscore)%N && _); [exact IH | now constructor].
Qed.

Lemma lower_safe c :
  isAlnum c || (c =? 95)%N = true -> isSafeUnit (lowerUnit c) = true.
Proof.
  unfold isAlnum, isSafeUnit, lowerUnit. intros H.
  split_comparisons; cbn in *; try reflexivity; try discriminate; lia.
Qed.

Lemma toLowerCase_ascii s :
  Forall (fun c => isAlnum c || (c =? 95)%N = true) s ->
  toLowerCase s = map lowerUnit s.
Proof.
  induction 1 as [|c r Hc Hr IH]; [reflexivity|].
  unfold toLowerCase in *. cbn [flat_map map]. rewrite IH.
  destruct (N.eqb_spec c 304) as [-> | _]; [discriminate | reflexivity].
Qed.

(** On the way out of [sanitizeFilename] only ASCII is lowered. *)
Lemma sanitize_map name :
  sanitizeFilename name
  = map lowerUnit (collapseUnderscores (replaceUnsafe name)).
Proof.
  unfold sanitizeFilename. apply toLowerCase_ascii, collapse_Forall.
  apply replaceUnsafe_units.
Qed.

(** X5. A sanitized file name is made of lower-case ASCII letters, digits
    and underscores only, whatever the journal is called. *)
Theorem X5_sanitizeFilename_alphabet (name : jsstring) :
  forallb isSafeUnit (sanitizeFilename name) = true.
Proof.
  apply forallb_forall. intros c Hc. rewrite sanitize_map in Hc.
  apply in_map_iff in Hc. destruct Hc as (x & <- & Hx).
  apply lower_safe.
  pose proof (collapse_Forall _ _ (replaceUnsafe_units name)) as F.
  rewrite Forall_forall in F. now apply F.
Qed.

Lemma lowerUnit_underscore c : (lowerUnit c =? 95)%N = (c =? 95)%N.
Proof.
  unfold lowerUnit. split_comparisons; cbn in *; try reflexivity; lia.
Qed.

Lemma double_lower s :
  hasDoubleUnderscore (map lowerUnit s) = hasDoubleUnderscore s.
Proof.
  induction s as [|c [|d r] IH]; try reflexivity.
  change (map lowerUnit (c :: d :: r))
    with (lowerUnit c :: lowerUnit d :: map lowerUnit r).
  change (lowerUnit d :: map lowerUnit r) with (map lowerUnit (d :: r)) in *.
  cbn [hasDoubleUnderscore].
  change (map lowerUnit (d :: r)) with (lowerUnit d :: map lowerUnit r) at 1.
  cbv beta iota. rewrite !lowerUnit_underscore.
  change (lowerUnit d :: map lowerUnit r) with (map lowerUnit (d :: r)).
  now rewrite IH.
Qed.

Lemma collapse_one c : collapseUnderscores [c] = [c].
Proof. cbn. now rewrite Bool.andb_false_r. Qed.

Lemma collapse_two c d r :
  collapseUnderscores (c :: d :: r)
  = if (c =? 95)%N && (d =? 95)%N
    then collapseUnderscores (d :: r)
    else c :: collapseUnderscores (d :: r).
Proof. reflexivity. Qed.

Lemma collapse_head c r :
  exists t, collapseUnderscores (c :: r) = c :: t
            /\ (c = 95%N -> match t with
                            | d :: _ => d <> 95%N
                            | [] => True
                            end).
Proof.
  revert c. induction r as [|d r IH]; intros c.
  - exists []. rewrite collapse_one. now split.
  - destruct (IH d) as (t & Et & Ht). rewrite collapse_two, Et.
    destruct (N.eqb_spec c 95) as [-> | Hc];
      destruct (N.eqb_spec d 95) as [-> | Hd]; cbn [andb].
    + exists t. split; [reflexivity | intros _; now apply Ht].
    + exists (d :: t). split; [reflexivity | now intros _].
    + exists (95%N :: t). split; [reflexivity | now intros].
    + exists (d :: t). split; [reflexivity | now intros].
Qed.

Lemma collapse_no_double s :
  hasDoubleUnderscore (collapseUnderscores s) = false.
Proof.
  induction s as [|c [|d r] IH]; [reflexivity | now rewrite collapse_one |].
  rewrite collapse_two.
  destruct (collapse_head d r) as (t & Et & Ht).
  destruct ((c =? 95)%N && (d =? 95)%N) eqn:E; [exact IH|].
  rewrite Et in *.
  change (hasDoubleUnderscore (c :: d :: t))
    with ((c =? 95)%N && (d =? 95)%N || hasDoubleUnderscore (d :: t)).
  now rewrite IH, E.
Qed.

(** X6. A sanitized file name never has two underscores in a row. *)
Theorem X6_sanitizeFilename_no_double_underscore (name : jsstring) :
  hasDoubleUnderscore (sanitizeFilename name) = false.
Proof.
  rewrite sanitize_map, double_lower. apply collapse_no_double.
Qed.

Lemma collapse_length s :
  List.length (collapseUnderscores s) <= List.length s.
Proof.
  induction s as [|c r IH]; [constructor|].
  cbn [collapseUnderscores]. destruct ((c =? underscore)%N && _);
    cbn [List.length]; lia.
Qed.

(** X7. Sanitizing never makes a file name longer. *)
Theorem X7_sanitizeFilename_not_longer (name : jsstring) :
  List.length (sanitizeFilename name) <= List.length name.
Proof.
  rewrite sanitize_map. unfold replaceUnsafe.
  rewrite length_map.
  etransitivity; [apply collapse_length | now rewrite length_map].
Qed.

Lemma collapse_fixed s :
  hasDoubleUnderscore s = false -> collapseUnderscores s = s.
Proof.
  induction s as [|c [|d r] IH]; intros H;
    [reflexivity | apply collapse_one |].
  cbn [hasDoubleUnderscore] in H. apply Bool.orb_false_iff in H.
  destruct H as [H1 H2]. rewrite collapse_two, H1. now rewrite IH.
Qed.

Lemma safe_fixed s :
  forallb isSafeUnit s = true ->
  replaceUnsafe s = s /\ map lowerUnit s = s.
Proof.
  induction s as [|c r IH]; intros H; [now split|].
  cbn [forallb] in H. apply Bool.andb_true_iff in H. destruct H as [Hc Hr].
  destruct (IH Hr) as [E1 E2].
  unfold replaceUnsafe in *. cbn [map]. rewrite E1, E2.
  assert (isAlnum c = true \/ c = 95%N) as Hk.
  { unfold isSafeUnit, isAlnum in *. split_comparisons; cbn in *;
      try discriminate; auto. }
  assert (lowerUnit c = c) as ->.
  { unfold isSafeUnit, lowerUnit in *. split_comparisons; cbn in *;
      try discriminate; try reflexivity; lia. }
  destruct Hk as [-> | ->]; [now split|]. now split.
Qed.

Lemma sanitize_fixed s :
  forallb isSafeUnit s = true -> hasDoubleUnderscore s = false ->
  sanitizeFilename s = s.
Proof.
  intros Hs Hd. destruct (safe_fixed s Hs) as [E1 E2].
  rewrite sanitize_map. now rewrite E1, (collapse_fixed s Hd).
Qed.

Lemma sanitize_safe s : forallb isSafeUnit (sanitizeFilename s) = true.
Proof.
  apply forallb_forall. intros c Hc. rewrite sanitize_map in Hc.
  apply in_map_iff in Hc. destruct Hc as (x & <- & Hx).
  apply lower_safe.
  pose proof (collapse_Forall _ _ (replaceUnsafe_units s)) as F.
  rewrite Forall_forall in F. now apply F.
Qed.

Lemma sanitize_single s : hasDoubleUnderscore (sanitizeFilename s) = false.
Proof.
  rewrite sanitize_map, double_lower. apply collapse_no_double.
Qed.

(** X8. The names that sanitizing leaves alone are exactly those made of
    lower-case letters, digits and single underscores. *)
Theorem X8_sanitizeFilename_fixed_points (name : jsstring) :
  sanitizeFilename name = name
  <-> forallb isSafeUnit name && negb (hasDoubleUnderscore name) = true.
Proof.
  split.
  - intros E. rewrite <- E. now rewrite sanitize_safe, sanitize_single.
  - intros H. apply Bool.andb_true_iff in H. destruct H as [Hs Hd].
    apply sanitize_fixed; [exact Hs|]. now destruct (hasDoubleUnderscore name).
Qed.

(** X9. Sanitizing a sanitized file name changes nothing. *)
Theorem X9_sanitizeFilename_idempotent (name : jsstring) :
  sanitizeFilename (sanitizeFilename name) = sanitizeFilename name.
Proof.
  apply sanitize_fixed; [apply sanitize_safe | apply sanitize_single].
Qed.

(* ================================================================== *)
(** * Colour arithmetic *)

Section ColourArithmetic.
Variable f : jsstring -> Color.
Local Open Scope R_scope.

Lemma luminance_unit r g b :
  isByte r -> isByte g -> isByte b ->
  exists l, calculateLuminance (rgb r g b) = Some l /\ 0 <= l <= 1.
Proof.
  intros [Hr1 Hr2] [Hg1 Hg2] [Hb1 Hb2]. eexists. split; [reflexivity|].
  apply IZR_le in Hr1, Hr2, Hg1, Hg2, Hb1, Hb2.
  pose proof (linearize_bounds (IZR r) (conj Hr1 Hr2)).
  pose proof (linearize_bounds (IZR g) (conj Hg1 Hg2)).
  pose proof (linearize_bounds (IZR b) (conj Hb1 Hb2)).
  lra.
Qed.

(** X10. The contrast ratio does not depend on the order of its two
    luminances. *)
Theorem X10_contrast_ratio_symmetric (lum1 lum2 : number) :
  calculateContrastRatio lum1 lum2 = calculateContrastRatio lum2 lum1.
Proof.
  destruct lum1 as [a|], lum2 as [b|]; try reflexivity.
  unfold calculateContrastRatio. now rewrite Rmax_comm, Rmin_comm.
Qed.

Lemma ratio_range a b :
  0 <= a <= 1 -> 0 <= b <= 1 ->
  1 <= (Rmax a b + 0.05) / (Rmin a b + 0.05) <= 21.
Proof.
  intros Ha Hb.
  assert (Hmin : 0 <= Rmin a b) by (apply Rmin_glb; lra).
  assert (Hmax : Rmax a b <= 1) by (apply Rmax_lub; lra).
  assert (Hord : Rmin a b <= Rmax a b)
    by (etransitivity; [apply Rmin_l | apply Rmax_l]).
  split.
  - apply Rmult_le_reg_r with (Rmin a b + 0.05); [lra|].
    unfold Rdiv. rewrite Rmult_assoc, Rinv_l by lra. lra.
  - apply Rmult_le_reg_r with (Rmin a b + 0.05); [lra|].
    unfold Rdiv. rewrite Rmult_assoc, Rinv_l by lra. lra.
Qed.

(** X11. Between two colours with channels from 0 to 255 the contrast
    ratio is a number from 1 to 21. *)
Theorem X11_contrast_ratio_range (r1 g1 b1 r2 g2 b2 : Z) :
  isByte r1 -> isByte g1 -> isByte b1 ->
  isByte r2 -> isByte g2 -> isByte b2 ->
  exists c,
    calculateContrastRatio (calculateLuminance (rgb r1 g1 b1))
                           (calculateLuminance (rgb r2 g2 b2)) = Some c
    /\ 1 <= c <= 21.
Proof.
  intros R1 G1 B1 R2 G2 B2.
  destruct (luminance_unit r1 g1 b1 R1 G1 B1) as (l1 & -> & H1).
  destruct (luminance_unit r2 g2 b2 R2 G2 B2) as (l2 & -> & H2).
  eexists. split; [reflexivity|]. now apply ratio_range.
Qed.

Lemma X11_witness :
  exists c,
    calculateContrastRatio (calculateLuminance (rgb 255 255 0))
                           (calculateLuminance (rgb 0 0 0)) = Some c
    /\ 1 <= c <= 21.
Proof.
  apply (X11_contrast_ratio_range 255 255 0 0 0 0); unfold isByte; lia.
Defined.

Lemma luminance_hexBlack : calculateLuminance (parseColor f hexBlack) = Some 0.
Proof.
  rewrite parse_hexBlack. unfold calculateLuminance.
  rewrite linearize_0. f_equal. lra.
Qed.

Lemma invertColor_cases color :
  invertColor f color = hexBlack \/ 
  (invertColor f color = color
   /\ gt (calculateLuminance (parseColor f color))
         (Some CONFIG.COLOR_THRESHOLDS.lightThreshold) = false).
Proof.
  unfold invertColor.
  destruct (gt (calculateLuminance (parseColor f color)) _);
    [left | right]; auto.
Qed.

Lemma invertColor_dark color :
  gt (calculateLuminance (parseColor f (invertColor f color)))
     (Some CONFIG.COLOR_THRESHOLDS.lightThreshold) = false.
Proof.
  destruct (invertColor_cases color) as [-> | [-> H]]; [|exact H].
  rewrite luminance_hexBlack. apply gt_false.
  unfold CONFIG.COLOR_THRESHOLDS.lightThreshold. lra.
Qed.

(** X12. The colour that [invertColor] returns never has a luminance
    above the light threshold, whatever colour it is given and however
    the platform resolves colour names. *)
Theorem X12_invertColor_never_light (color : jsstring) :
  gt (calculateLuminance (parseColor f (invertColor f color)))
     (Some CONFIG.COLOR_THRESHOLDS.lightThreshold) = false.
Proof. apply invertColor_dark. Qed.

(** X13. Inverting an inverted colour returns it as it is. *)
Theorem X13_invertColor_idempotent (color : jsstring) :
  invertColor f (invertColor f color) = invertColor f color.
Proof.
  unfold invertColor at 1. now rewrite invertColor_dark.
Qed.

End ColourArithmetic.

(* ================================================================== *)
(** * Hexadecimal colours *)

Lemma stripPrefix_length lit s r :
  stripPrefix lit s = Some r -> List.length s = List.length lit + List.length r.
Proof.
  revert s. induction lit as [|a lit IH]; intros s H.
  - destruct s; injection H as <-; reflexivity.
  - destruct s as [|b s]; [discriminate|]. cbn [stripPrefix] in H.
    destruct (a =? b)%N; [|discriminate].
    cbn [List.length]. now rewrite (IH _ H).
Qed.

Lemma span_length g s :
  List.length s
  = List.length (fst (span g s)) + List.length (snd (span g s)).
Proof.
  induction s as [|c s IH]; [reflexivity|].
  cbn [span]. destruct (g c); [|reflexivity].
  destruct (span g s) as [a b]. cbn [fst snd List.length] in *. lia.
Qed.

Lemma digitGroup_length s d r :
  digitGroup s = Some (d, r) -> List.length r < List.length s.
Proof.
  unfold digitGroup. pose proof (span_length isDigit s) as L.
  destruct (span isDigit s) as [[|x a] b]; [discriminate|].
  intros H. injection H as <- <-. cbn [fst snd List.length] in L. lia.
Qed.

Lemma trimStart_length s : List.length (trimStart s) <= List.length s.
Proof.
  induction s as [|c s IH]; [constructor|].
  cbn [trimStart]. destruct (isWhiteSpace c); cbn [List.length]; lia.
Qed.

Lemma matchChannels_length s m :
  matchChannels s = Some m -> 6 <= List.length s.
Proof.
  unfold matchChannels. intros H.
  destruct s as [|c s1]; [discriminate|].
  destruct (c =? 40)%N eqn:E;
    [apply N.eqb_eq in E; subst c | idtac].
  - destruct (digitGroup s1) as [[g1 r1]|] eqn:D1; [|discriminate].
    apply digitGroup_length in D1.
    destruct r1 as [|k1 s2]; [discriminate|].
    destruct (k1 =? 44)%N eqn:E1;
      [apply N.eqb_eq in E1; subst k1 | idtac].
    + destruct (digitGroup (trimStart s2)) as [[g2 r2]|] eqn:D2;
        [|discriminate].
      apply digitGroup_length in D2. pose proof (trimStart_length s2).
      destruct r2 as [|k2 s3]; [discriminate|].
      destruct (k2 =? 44)%N eqn:E2;
        [apply N.eqb_eq in E2; subst k2 | idtac].
      * destruct (digitGroup (trimStart s3)) as [[g3 r3]|] eqn:D3;
          [|discriminate].
        apply digitGroup_length in D3. pose proof (trimStart_length s3).
        cbn [List.length] in *. lia.
      * exfalso. apply N.eqb_neq in E2.
        destruct k2 as [|q]; [discriminate|].
        repeat (destruct q as [q|q|]; try discriminate); now apply E2.
    + exfalso. apply N.eqb_neq in E1.
      destruct k1 as [|q]; [discriminate|].
      repeat (destruct q as [q|q|]; try discriminate); now apply E1.
  - exfalso. apply N.eqb_neq in E.
    destruct c as [|q]; [discriminate|].
    repeat (destruct q as [q|q|]; try discriminate); now apply E.
Qed.

Lemma matchRgbHere_length s m :
  matchRgbHere s = Some m -> 9 <= List.length s.
Proof.
  unfold matchRgbHere.
  destruct (stripPrefix (str "rgb") s) as [r|] eqn:P; [|discriminate].
  apply stripPrefix_length in P. change (List.length (str "rgb")) with 3 in P.
  intros H.
  assert (K : matchChannels r = Some m
              \/ exists r', r = 97%N :: r' /\ matchChannels r' = Some m).
  { destruct r as [|c r']; [now left|].
    destruct (N.eq_dec c 97) as [-> | Hc].
    - cbn in H. destruct (matchChannels r') as [m'|] eqn:M.
      + right. exists r'. split; [reflexivity|]. now rewrite M.
      + now left.
    - left. destruct c as [|q]; [exact H|].
      repeat (destruct q as [q|q|]; try exact H). now elim Hc. }
  destruct K as [K | (r' & -> & K)]; apply matchChannels_length in K;
    cbn [List.length] in *; lia.
Qed.

(** A match of the [rgb] pattern takes nine characters at least. *)
Lemma rgbMatch_short s : List.length s < 9 -> rgbMatch s = None.
Proof.
  induction s as [|c s IH]; intros H.
  - reflexivity.
  - cbn [rgbMatch]. destruct (matchRgbHere (c :: s)) eqn:M.
    + apply matchRgbHere_length in M. lia.
    + apply IH. cbn [List.length] in H. lia.
Qed.

Lemma hex2_value upper v :
  (v < 256)%N -> parseInt (hex2 upper v) (Some 16%N) = Some (Z.of_N v).
Proof.
  intros Hv.
  assert (A : forallb
                (fun n =>
                   match parseInt (hex2 upper (N.of_nat n)) (Some 16%N) with
                   | Some z => (z =? Z.of_nat n)%Z
                   | None => false
                   end) (seq 0 256) = true)
    by (destruct upper; vm_compute; reflexivity).
  rewrite forallb_forall in A.
  specialize (A (N.to_nat v)). rewrite N2Nat.id in A.
  assert (I : In (N.to_nat v) (seq 0 256)) by (apply in_seq; lia).
  specialize (A I).
  destruct (parseInt (hex2 upper v) (Some 16%N)) as [z|]; [|discriminate].
  apply Z.eqb_eq in A. f_equal. lia.
Qed.

Section HexColours.
Variable f : jsstring -> Color.

(** X14. A colour written [#rrggbb], in either case of the digits, is
    read back as the three channels it was written from. *)
Theorem X14_hex_colour_round_trip (upper : bool) (r g b : N) :
  (r < 256)%N -> (g < 256)%N -> (b < 256)%N ->
  parseColor f (hexColor upper r g b)
  = rgb (Z.of_N r) (Z.of_N g) (Z.of_N b).
Proof.
  intros Hr Hg Hb. unfold parseColor.
  rewrite rgbMatch_short by (cbn; lia).
  change ((parseInt (hex2 upper r) (Some 16%N),
           parseInt (hex2 upper g) (Some 16%N),
           parseInt (hex2 upper b) (Some 16%N))
          = rgb (Z.of_N r) (Z.of_N g) (Z.of_N b)).
  now rewrite !hex2_value.
Qed.

(** X15. The short notation [#abc] is read as [#aabbcc], whatever the
    three characters are. *)
Theorem X15_short_hex_doubles_digits (a b c : N) :
  parseColor f [35%N; a; b; c] = parseColor f [35%N; a; a; b; b; c; c].
Proof.
  unfold parseColor. rewrite !rgbMatch_short by (cbn; lia). reflexivity.
Qed.

(** X16. A [#] colour that has fewer than five characters after the
    [#], and not three, has no blue channel and so no luminance. *)
Theorem X16_malformed_hex_has_no_luminance (hex : jsstring) :
  List.length hex <= 4 -> List.length hex <> 3 ->
  calculateLuminance (parseColor f (35%N :: hex)) = None.
Proof.
  intros H4 H3. unfold parseColor.
  rewrite rgbMatch_short by (cbn [List.length]; lia).
  destruct hex as [|a [|b [|c [|d [|e hex]]]]]; cbn [List.length] in *;
    try lia;
    match goal with
    | |- calculateLuminance ?c = None =>
        assert (E : snd c = None) by reflexivity;
        destruct c as [[x y] z]; cbn [snd] in E; subst z;
        now destruct x, y
    end.
Qed.

End HexColours.

(* ================================================================== *)
(** * Colours that cannot be read *)

Section UnreadableColours.
Variable f : jsstring -> Color.

Lemma gt_nan_l b : gt None b = false.
Proof. reflexivity. Qed.

Lemma gt_nan_r a : gt a None = false.
Proof. now destruct a. Qed.

(** X17. A colour without a luminance is neither light nor dark to the
    code: it is returned as it is by [invertColor], it is never the light
    side nor the dark side of a light-on-dark pair, and it has no contrast
    ratio with any other colour. *)
Theorem X17_unreadable_colour_is_inert (color other : jsstring) :
  calculateLuminance (parseColor f color) = None ->
  invertColor f color = color
  /\ isLightOnDark f color other = false
  /\ isLightOnDark f other color = false
  /\ calculateContrastRatio (calculateLuminance (parseColor f color))
       (calculateLuminance (parseColor f other)) = None.
Proof.
  intros H. unfold invertColor, isLightOnDark. rewrite H.
  repeat split; auto using gt_nan_r.
Qed.

(** X18. An element whose text colour has no luminance is not collected
    for inversion, and the contrast pass leaves the document as it is
    when it comes to that element. *)
Theorem X18_unreadable_text_colour_is_skipped (doc : Node) (node : path) :
  calculateLuminance (parseColor f (c_color (getComputedStyle doc node)))
  = None ->
  collectInversion f doc node = [] /\ fixContrast f doc node = doc.
Proof.
  intros H. unfold collectInversion, fixContrast, contrastOf, isLightOnDark.
  rewrite H. split; reflexivity.
Qed.

End UnreadableColours.

(* ================================================================== *)
(** * Luminance and the order of the channels *)

Section LuminanceOrder.
Local Open Scope R_scope.

Lemma linearize_low v : v <= 10 -> linearize v = v / 255 / 12.92.
Proof.
  intros H. unfold linearize.
  destruct (Rle_dec (v / 255) 0.03928); [reflexivity | lra].
Qed.

Lemma linearize_high v :
  11 <= v -> linearize v = Rpower ((v / 255 + 0.055) / 1.055) 2.4.
Proof.
  intros H. unfold linearize.
  destruct (Rle_dec (v / 255) 0.03928); [lra | reflexivity].
Qed.

Lemma Rpower_fifth x : 0 < x -> Rpower x 2.4 ^ 5 = x ^ 12.
Proof.
  intros Hx.
  rewrite <- (Rpower_pow 5) by apply exp_pos.
  rewrite Rpower_mult.
  replace (2.4 * INR 5) with (INR 12) by (simpl; lra).
  now apply Rpower_pow.
Qed.

(** The two branches of the channel formula keep their order where they
    meet, between the channel values 10 and 11. *)
Lemma linearize_10_11 : linearize 10 <= linearize 11.
Proof.
  rewrite linearize_low, linearize_high by lra.
  set (x := (11 / 255 + 0.055) / 1.055).
  set (y := 10 / 255 / 12.92).
  assert (Hx : 0.093 <= x) by (unfold x; lra).
  assert (Hy : 0 <= y <= 0.00304) by (unfold y; lra).
  destruct (Rle_dec y (Rpower x 2.4)) as [|N]; [assumption|].
  exfalso. apply Rnot_le_lt in N.
  assert (P : 0 < Rpower x 2.4) by apply exp_pos.
  assert (A : Rpower x 2.4 ^ 5 <= y ^ 5) by (apply pow_incr; lra).
  rewrite Rpower_fifth in A by lra.
  assert (B : y ^ 5 <= 0.00304 ^ 5) by (apply pow_incr; lra).
  assert (C : 0.093 ^ 12 <= x ^ 12) by (apply pow_incr; lra).
  assert (D : 0.00304 ^ 5 < 0.093 ^ 12) by lra.
  lra.
Qed.

Lemma linearize_monotone (a b : Z) :
  (0 <= a)%Z -> (a <= b)%Z -> linearize (IZR a) <= linearize (IZR b).
Proof.
  intros H0 Hab.
  assert (Ra : 0 <= IZR a) by now apply IZR_le.
  assert (Rab : IZR a <= IZR b) by now apply IZR_le.
  destruct (Z_le_gt_dec b 10) as [Hb | Hb].
  - assert (IZR b <= 10) by now apply IZR_le.
    rewrite !linearize_low by lra. lra.
  - assert (11 <= IZR b) by (apply IZR_le; lia).
    destruct (Z_le_gt_dec a 10) as [Ha | Ha].
    + assert (IZR a <= 10) by now apply IZR_le.
      transitivity (linearize 10);
        [rewrite !linearize_low by lra; lra|].
      transitivity (linearize 11); [apply linearize_10_11|].
      rewrite !linearize_high by lra.
      apply Rle_Rpower_l; lra.
    + assert (11 <= IZR a) by (apply IZR_le; lia).
      rewrite !linearize_high by lra.
      apply Rle_Rpower_l; lra.
Qed.

(** X19. Raising a channel by whole steps never lowers the luminance:
    a colour whose three channels are at most those of another one has
    at most its luminance. *)
Theorem X19_luminance_monotone (r g b r' g' b' : Z) :
  (0 <= r <= r')%Z -> (0 <= g <= g')%Z -> (0 <= b <= b')%Z ->
  exists l l',
    calculateLuminance (rgb r g b) = Some l
    /\ calculateLuminance (rgb r' g' b') = Some l'
    /\ l <= l'.
Proof.
  intros [Hr Hr'] [Hg Hg'] [Hb Hb'].
  do 2 eexists. split; [reflexivity|]. split; [reflexivity|].
  pose proof (linearize_monotone r r' Hr Hr').
  pose proof (linearize_monotone g g' Hg Hg').
  pose proof (linearize_monotone b b' Hb Hb').
  lra.
Qed.

Lemma X19_witness :
  exists l l',
    calculateLuminance (rgb 10 10 10) = Some l
    /\ calculateLuminance (rgb 11 11 11) = Some l'
    /\ l <= l'.
Proof.
  apply (X19_luminance_monotone 10 10 10 11 11 11); lia.
Defined.

End LuminanceOrder.

(* ================================================================== *)
(** * What the style passes write *)

Lemma fold_invariant {A} (step : Node -> A -> Node) (I : Node -> Prop) l :
  (forall d x, In x l -> I d -> I (step d x)) ->
  forall d, I d -> I (fold_left step l d).
Proof.
  induction l as [|x l IH]; intros S d H; [exact H|].
  cbn [fold_left]. apply IH.
  - intros d' y Hy. apply S. now right.
  - apply S; [now left | exact H].
Qed.

Lemma map_mapNth {A B} (h : A -> B) (k : A -> A) l : forall i,
  (forall c, In c l -> h (k c) = h c) ->
  map h (mapNth k i l) = map h l.
Proof.
  induction l as [|c l IH]; intros i H; [now destruct i|].
  destruct i as [|i]; cbn [mapNth map].
  - now rewrite H by now left.
  - rewrite IH; [reflexivity|]. intros c' Hc. apply H. now right.
Qed.

Lemma eraseStyles_setStyle g doc : forall q,
  eraseStyles (setStyle g doc q) = eraseStyles doc.
Proof.
  induction doc as [s|t st cs IH|d] using Node_ind; intros q;
    try (destruct q; reflexivity).
  destruct q as [|i q]; [reflexivity|].
  rewrite setStyle_child. cbn [eraseStyles]. f_equal.
  apply map_mapNth. intros c Hc. rewrite Forall_forall in IH. now apply IH.
Qed.

Section Frame.
Variable f : jsstring -> Color.

Lemma eraseStyles_applyInversion d inv :
  eraseStyles (applyInversion f d inv) = eraseStyles d.
Proof.
  unfold applyInversion.
  destruct (isOpaqueDeclaration _); [destruct (lt _ _)|];
    now rewrite ?eraseStyles_setStyle.
Qed.

Lemma eraseStyles_makeVisible d q : eraseStyles (makeVisible d q) = eraseStyles d.
Proof.
  unfold makeVisible.
  destruct (eqb (c_visibility _) _), (eqb (c_opacity _) _);
    now rewrite ?eraseStyles_setStyle.
Qed.

Lemma eraseStyles_fixContrast d q :
  eraseStyles (fixContrast f d q) = eraseStyles d.
Proof.
  unfold fixContrast. destruct (lt _ _); now rewrite ?eraseStyles_setStyle.
Qed.

(** X20. The style passes write style declarations and nothing else: the
    elements, their nesting and order, and every text are after
    [processStylesForPDF] what they were before. *)
Theorem X20_processStyles_changes_only_styles (doc : Node) :
  eraseStyles (processStylesForPDF f doc) = eraseStyles doc.
Proof.
  unfold processStylesForPDF, fixContrastIssues, ensureTextVisibility,
    invertColorsForPDF. cbn [fst].
  set (d1 := fold_left (applyInversion f) (elementsToInvert f doc) doc).
  set (d2 := fold_left makeVisible (elementNodes d1) d1).
  transitivity (eraseStyles d2).
  { apply (fold_invariant (fixContrast f)
             (fun d => eraseStyles d = eraseStyles d2)); [|reflexivity].
    intros d x _ H. now rewrite eraseStyles_fixContrast. }
  transitivity (eraseStyles d1).
  { apply (fold_invariant makeVisible
             (fun d => eraseStyles d = eraseStyles d1)); [|reflexivity].
    intros d x _ H. now rewrite eraseStyles_makeVisible. }
  apply (fold_invariant (applyInversion f)
           (fun d => eraseStyles d = eraseStyles doc)); [|reflexivity].
  intros d x _ H. now rewrite eraseStyles_applyInversion.
Qed.

End Frame.

Lemma declared_setStyle proj g doc q p :
  (forall st, proj (g st) = proj st) ->
  declared proj (setStyle g doc q) p = declared proj doc p.
Proof.
  intros H. unfold declared. rewrite styleAt_setStyle.
  destruct (list_eq_dec Nat.eq_dec p q); [|reflexivity].
  destruct (styleAt doc p) as [st|]; [|reflexivity].
  cbn [option_map]. now rewrite H.
Qed.

Section Properties.
Variable f : jsstring -> Color.

Lemma declared_applyInversion proj d inv p :
  (forall v st, proj (withColor v st) = proj st) ->
  (forall v st, proj (withBackgroundColor v st) = proj st) ->
  declared proj (applyInversion f d inv) p = declared proj d p.
Proof.
  intros Hc Hb. unfold applyInversion.
  destruct (isOpaqueDeclaration _); [destruct (lt _ _)|];
    now rewrite ?declared_setStyle by auto.
Qed.

Lemma declared_makeVisible proj d q p :
  (forall v st, proj (withVisibility v st) = proj st) ->
  (forall v st, proj (withOpacity v st) = proj st) ->
  declared proj (makeVisible d q) p = declared proj d p.
Proof.
  intros Hv Ho. unfold makeVisible.
  destruct (eqb (c_visibility _) _), (eqb (c_opacity _) _);
    now rewrite ?declared_setStyle by auto.
Qed.

Lemma declared_fixContrast proj d q p :
  (forall v st, proj (withColor v st) = proj st) ->
  declared proj (fixContrast f d q) p = declared proj d p.
Proof.
  intros Hc. unfold fixContrast.
  destruct (lt _ _); now rewrite ?declared_setStyle by auto.
Qed.

Lemma declared_invert proj doc p :
  (forall v st, proj (withColor v st) = proj st) ->
  (forall v st, proj (withBackgroundColor v st) = proj st) ->
  declared proj (fst (invertColorsForPDF f doc)) p = declared proj doc p.
Proof.
  intros Hc Hb. unfold invertColorsForPDF. cbn [fst].
  apply (fold_invariant (applyInversion f)
           (fun d => declared proj d p = declared proj doc p));
    [|reflexivity].
  intros d x _ H. now rewrite declared_applyInversion.
Qed.

Lemma declared_visibility proj doc p :
  (forall v st, proj (withVisibility v st) = proj st) ->
  (forall v st, proj (withOpacity v st) = proj st) ->
  declared proj (ensureTextVisibility doc) p = declared proj doc p.
Proof.
  intros Hv Ho. unfold ensureTextVisibility.
  apply (fold_invariant makeVisible
           (fun d => declared proj d p = declared proj doc p));
    [|reflexivity].
  intros d x _ H. now rewrite declared_makeVisible.
Qed.

Lemma declared_contrast proj doc p :
  (forall v st, proj (withColor v st) = proj st) ->
  declared proj (fixContrastIssues f doc) p = declared proj doc p.
Proof.
  intros Hc. unfold fixContrastIssues.
  apply (fold_invariant (fixContrast f)
           (fun d => declared proj d p = declared proj doc p));
    [|reflexivity].
  intros d x _ H. now rewrite declared_fixContrast.
Qed.

(** X21. Each pass writes its own properties only.  The inversion leaves
    every declared visibility and opacity as it was; the visibility pass
    leaves every declared colour and background; the contrast pass
    leaves every declared background, visibility and opacity. *)
Theorem X21_passes_keep_to_their_properties (doc : Node) (p : path) :
  (declared visibility (fst (invertColorsForPDF f doc)) p
   = declared visibility doc p
   /\ declared opacity (fst (invertColorsForPDF f doc)) p
      = declared opacity doc p)
  /\ (declared color (ensureTextVisibility doc) p = declared color doc p
      /\ declared backgroundColor (ensureTextVisibility doc) p
         = declared backgroundColor doc p)
  /\ (declared backgroundColor (fixContrastIssues f doc) p
      = declared backgroundColor doc p
      /\ declared visibility (fixContrastIssues f doc) p
         = declared visibility doc p
      /\ declared opacity (fixContrastIssues f doc) p
         = declared opacity doc p).
Proof.
  repeat split;
    first [ now apply declared_invert
          | now apply declared_visibility
          | now apply declared_contrast ].
Qed.

Lemma eqb_false_neq a b : eqb a b = false -> a <> b.
Proof. unfold eqb. now destruct (list_eq_dec N.eq_dec a b). Qed.

Lemma styleAt_makeVisible_other d q p :
  q <> p -> styleAt (makeVisible d q) p = styleAt d p.
Proof.
  intros H. assert (p <> q) by congruence. unfold makeVisible.
  destruct (eqb (c_visibility _) _), (eqb (c_opacity _) _);
    now rewrite ?styleAt_setStyle_other by assumption.
Qed.

Lemma computed_visibility doc p st v :
  styleAt doc p = Some st -> visibility st = Some v ->
  c_visibility (getComputedStyle doc p) = v.
Proof.
  intros H Hv. destruct (computed_of_style p doc initialStyle st H) as [inh E].
  unfold getComputedStyle. rewrite E. cbn. now rewrite Hv.
Qed.

Lemma computed_opacity doc p st v :
  styleAt doc p = Some st -> opacity st = Some v ->
  c_opacity (getComputedStyle doc p) = v.
Proof.
  intros H Hv. destruct (computed_of_style p doc initialStyle st H) as [inh E].
  unfold getComputedStyle. rewrite E. cbn. now rewrite Hv.
Qed.

Lemma makeVisible_here d p st :
  styleAt d p = Some st ->
  exists st', styleAt (makeVisible d p) p = Some st'
              /\ visibility st' <> Some (str "hidden")
              /\ opacity st' <> Some (str "0").
Proof.
  intros H. unfold makeVisible.
  pose proof (styleAt_setStyle_same (withVisibility (str "visible")) d p st H)
    as H1.
  destruct (eqb (c_visibility (getComputedStyle d p)) (str "hidden")) eqn:V;
    destruct (eqb (c_opacity (getComputedStyle d p)) (str "0")) eqn:O.
  - eexists. split; [apply (styleAt_setStyle_same _ _ _ _ H1)|].
    split; discriminate.
  - eexists. split; [exact H1|].
    split; [discriminate|]. cbn [withVisibility opacity]. intros E.
    apply eqb_false_neq in O. now rewrite (computed_opacity d p st _ H E) in O.
  - eexists. split; [apply (styleAt_setStyle_same _ _ _ _ H)|].
    split; [|discriminate]. cbn [withOpacity visibility]. intros E.
    apply eqb_false_neq in V.
    now rewrite (computed_visibility d p st _ H E) in V.
  - exists st. split; [exact H|]. split; intros E.
    + apply eqb_false_neq in V.
      now rewrite (computed_visibility d p st _ H E) in V.
    + apply eqb_false_neq in O.
      now rewrite (computed_opacity d p st _ H E) in O.
Qed.

(** X22. After the visibility pass no element below the root declares
    [visibility: hidden] or [opacity: 0]. *)
Theorem X22_no_element_left_hidden (doc : Node) (p : path) :
  In p (elementNodes doc) ->
  declared visibility (ensureTextVisibility doc) p
    <> Some (Some (str "hidden"))
  /\ declared opacity (ensureTextVisibility doc) p <> Some (Some (str "0")).
Proof.
  intros Hp.
  pose proof (fold_hits makeVisible (fun q => q = p)
                (fun d => exists st, styleAt d p = Some st)
                (fun d => exists st, styleAt d p = Some st
                                     /\ visibility st <> Some (str "hidden")
                                     /\ opacity st <> Some (str "0"))
                (elementNodes doc)) as F.
  destruct (F (fun q => path_eq_dec q p)) with (d := doc) as (_ & Hit & _).
  - intros d q _ Hne.
    rewrite (styleAt_makeVisible_other d q p Hne). tauto.
  - intros d q _ -> [(st & H) | (st & H & _)];
      exact (makeVisible_here d p st H).
  - destruct Hit as (st & H & Hv & Ho).
    + now exists p.
    + destruct (elementNodes_styled doc p Hp) as (_ & st & H).
      now exists st.
    + unfold declared, ensureTextVisibility. rewrite H. cbn [option_map].
      split; congruence.
Qed.

Lemma X22_witness :
  declared visibility
    (ensureTextVisibility
       (DIV [Element (str "P")
               (mkStyle None None (Some (str "hidden")) (Some (str "0")))
               []])) [0]
    <> Some (Some (str "hidden"))
  /\ declared opacity
       (ensureTextVisibility
          (DIV [Element (str "P")
                  (mkStyle None None (Some (str "hidden")) (Some (str "0")))
                  []])) [0]
     <> Some (Some (str "0")).
Proof.
  apply (X22_no_element_left_hidden
           (DIV [Element (str "P")
                   (mkStyle None None (Some (str "hidden")) (Some (str "0")))
                   []]) [0]).
  cbn. now left.
Defined.

Lemma declared_written proj g v doc q p :
  (forall st, proj (g st) = Some v) ->
  declared proj (setStyle g doc q) p = declared proj doc p
  \/ declared proj (setStyle g doc q) p = Some (Some v).
Proof.
  intros H. unfold declared. rewrite styleAt_setStyle.
  destruct (list_eq_dec Nat.eq_dec p q); [|now left].
  destruct (styleAt doc p) as [st|]; [right | now left].
  cbn [option_map]. now rewrite H.
Qed.

Lemma applyInversion_writes d inv p :
  (declared color (applyInversion f d inv) p = declared color d p
   \/ (element inv = p
       /\ declared color (applyInversion f d inv) p
          = Some (Some (invertColor f (originalColor inv)))))
  /\ (declared backgroundColor (applyInversion f d inv) p
      = declared backgroundColor d p
      \/ declared backgroundColor (applyInversion f d inv) p
         = Some (Some transparent)).
Proof.
  unfold applyInversion.
  set (d1 := setStyle (withColor (invertColor f (originalColor inv))) d
               (element inv)).
  assert (C1 : declared color d1 p = declared color d p
               \/ (element inv = p
                   /\ declared color d1 p
                      = Some (Some (invertColor f (originalColor inv))))).
  { unfold d1, declared. rewrite styleAt_setStyle.
    destruct (list_eq_dec Nat.eq_dec p (element inv)) as [E|]; [|now left].
    destruct (styleAt d p); [right | now left]. now split. }
  assert (B1 : declared backgroundColor d1 p = declared backgroundColor d p)
    by now apply declared_setStyle.
  destruct (isOpaqueDeclaration _); [destruct (lt _ _)|]; try tauto.
  split.
  - rewrite declared_setStyle by reflexivity. exact C1.
  - rewrite <- B1. now apply declared_written.
Qed.

Lemma fixContrast_writes d q p :
  declared color (fixContrast f d q) p = declared color d p
  \/ declared color (fixContrast f d q) p = Some (Some hexBlack).
Proof.
  unfold fixContrast. destruct (lt _ _); [|now left].
  now apply declared_written.
Qed.

(** X23. The only values the three passes ever write into a colour
    declaration are [#000000] and the text colour the element had when the
    inversion started; the only value written into a background
    declaration is [transparent]. *)
Theorem X23_values_written_by_the_passes (doc : Node) (p : path) :
  (declared color (processStylesForPDF f doc) p = declared color doc p
   \/ declared color (processStylesForPDF f doc) p = Some (Some hexBlack)
   \/ declared color (processStylesForPDF f doc) p
      = Some (Some (c_color (getComputedStyle doc p))))
  /\ (declared backgroundColor (processStylesForPDF f doc) p
      = declared backgroundColor doc p
      \/ declared backgroundColor (processStylesForPDF f doc) p
         = Some (Some transparent)).
Proof.
  unfold processStylesForPDF.
  set (d1 := fst (invertColorsForPDF f doc)).
  set (d2 := ensureTextVisibility d1).
  assert (I1 : (declared color d1 p = declared color doc p
                \/ declared color d1 p
                   = Some (Some (invertColor f
                                   (c_color (getComputedStyle doc p)))))
               /\ (declared backgroundColor d1 p
                   = declared backgroundColor doc p
                   \/ declared backgroundColor d1 p
                      = Some (Some transparent))).
  { unfold d1, invertColorsForPDF. cbn [fst].
    apply (fold_invariant (applyInversion f)
             (fun d =>
                (declared color d p = declared color doc p
                 \/ declared color d p
                    = Some (Some (invertColor f
                                    (c_color (getComputedStyle doc p)))))
                /\ (declared backgroundColor d p
                    = declared backgroundColor doc p
                    \/ declared backgroundColor d p
                       = Some (Some transparent))));
      [|now split; left].
    intros d inv Hin [Hc Hb].
    destruct (elementsToInvert_sound f doc inv Hin) as (_ & Eo & _).
    destruct (applyInversion_writes d inv p) as [Wc Wb]. split.
    - destruct Wc as [-> | [<- ->]]; [exact Hc|]. right. now rewrite Eo.
    - destruct Wb as [-> | ->]; [exact Hb | now right]. }
  assert (I2 : declared color d2 p = declared color d1 p
               /\ declared backgroundColor d2 p
                  = declared backgroundColor d1 p)
    by (split; now apply declared_visibility).
  destruct I1 as [Ic Ib], I2 as [Vc Vb]. split.
  - assert (J : declared color (fixContrastIssues f d2) p = declared color d2 p
                \/ declared color (fixContrastIssues f d2) p
                   = Some (Some hexBlack)).
    { unfold fixContrastIssues.
      apply (fold_invariant (fixContrast f)
               (fun d => declared color d p = declared color d2 p
                         \/ declared color d p = Some (Some hexBlack)));
        [|now left].
      intros d q _ H. destruct (fixContrast_writes d q p) as [-> | ->];
        [exact H | now right]. }
    destruct J as [-> | ->]; [|now right; left].
    rewrite Vc. destruct Ic as [-> | ->]; [now left|].
    destruct (invertColor_cases f (c_color (getComputedStyle doc p)))
      as [-> | [-> _]]; [now right; left | now right; right].
  - rewrite declared_contrast by reflexivity. rewrite Vb. exact Ib.
Qed.






(** X26. The effective background of an element is never a transparent
    or empty value: it is an opaque declaration found on the way up, or
    the white default. *)
Theorem X26_effective_background_is_opaque (doc : Node) (p : path) :
  isOpaqueDeclaration (getEffectiveBackgroundColor doc p) = true.
Proof.
  unfold getEffectiveBackgroundColor.
  destruct (walkUp_total doc maxDepth p) as [-> | (k & _ & _ & Ho & ->)];
    [reflexivity | exact Ho].
Qed.

End Properties.

(* ================================================================== *)
(** * The properties at concrete inputs *)

Lemma X14_witness :
  parseColor resolveNothing (hexColor false 255 128 0) = rgb 255 128 0.
Proof.
  apply (X14_hex_colour_round_trip resolveNothing false 255 128 0);
    reflexivity.
Defined.

Lemma X16_witness :
  calculateLuminance (parseColor resolveNothing (str "#abcd")) = None.
Proof.
  apply (X16_malformed_hex_has_no_luminance resolveNothing (str "abcd"));
    cbn; lia.
Defined.

Lemma X17_witness :
  invertColor resolveNothing (str "#12") = str "#12"
  /\ isLightOnDark resolveNothing (str "#12") black = false
  /\ isLightOnDark resolveNothing black (str "#12") = false
  /\ calculateContrastRatio
       (calculateLuminance (parseColor resolveNothing (str "#12")))
       (calculateLuminance (parseColor resolveNothing black)) = None.
Proof.
  apply (X17_unreadable_colour_is_inert resolveNothing (str "#12") black).
  reflexivity.
Defined.

Lemma X18_witness :
  collectInversion resolveNothing
    (DIV [Element (str "P") (styled (str "#12") black) []]) [0] = []
  /\ fixContrast resolveNothing
       (DIV [Element (str "P") (styled (str "#12") black) []]) [0]
     = DIV [Element (str "P") (styled (str "#12") black) []].
Proof.
  apply (X18_unreadable_text_colour_is_skipped resolveNothing
           (DIV [Element (str "P") (styled (str "#12") black) []]) [0]).
  reflexivity.
Defined.

Section BlackOnWhite.
Local Open Scope R_scope.




End BlackOnWhite.



(* ================================================================== *)
(** * Page layout *)

Section PageLayout.
Local Open Scope R_scope.







End PageLayout.



(* ================================================================== *)
(** * One export at a time *)

Lemma length_removeNth {A} (l : list A) : forall i x,
  nth_error l i = Some x -> List.length (Main.removeNth i l) = pred (List.length l).
Proof.
  induction l as [|y l IH]; intros [|i] x H; try discriminate;
    [reflexivity|].
  cbn [Main.removeNth List.length]. rewrite (IH i x H).
  destruct l; [now destruct i | reflexivity].
Qed.

Lemma step_guard st e :
  List.length (Main.waiting st)
  = (if Main.exportInProgress st then 1 else 0) ->
  List.length (Main.waiting (Main.step st e))
  = (if Main.exportInProgress (Main.step st e) then 1 else 0).
Proof.
  destruct st as [flag waiting notes]. cbn [Main.waiting Main.exportInProgress].
  intros H. destruct e as [journal | i o]; cbn [Main.step].
  - unfold Main.handleExportClick. cbn [Main.exportInProgress Main.waiting].
    destruct flag.
    + exact H.
    + destruct (Main.pages journal) as [[|k]|];
        cbn [Main.exportInProgress Main.waiting]; try exact H.
      rewrite length_app, H. reflexivity.
  - unfold Main.resume. cbn [Main.exportInProgress Main.waiting].
    destruct (nth_error waiting i) as [j|] eqn:N; [|exact H].
    cbn [Main.exportInProgress Main.waiting].
    rewrite (length_removeNth _ i j N), H.
    destruct flag; [reflexivity|].
    destruct waiting; [now destruct i | discriminate].
Qed.

(** X29. Clicks on the export button never have two exports under way
    at the same time: after any sequence of clicks and finished exports
    at most one call is waiting for its export, and one is waiting
    exactly when [exportInProgress] is set. *)
Theorem X29_one_export_at_a_time (events : list Main.Event) :
  List.length (Main.waiting (Main.run events)) <= 1
  /\ (Main.exportInProgress (Main.run events) = true
      <-> List.length (Main.waiting (Main.run events)) = 1).
Proof.
  assert (I : forall l st,
             List.length (Main.waiting st)
             = (if Main.exportInProgress st then 1 else 0) ->
             List.length (Main.waiting (fold_left Main.step l st))
             = (if Main.exportInProgress (fold_left Main.step l st)
                then 1 else 0)).
  { induction l as [|e l IH]; intros st H; [exact H|].
    cbn [fold_left]. now apply IH, step_guard. }
  specialize (I events Main.initial eq_refl). fold (Main.run events) in I.
  destruct (Main.exportInProgress (Main.run events)); rewrite I.
  - split; [lia | tauto].
  - split; [lia|]. split; discriminate.
Qed.

(* ================================================================== *)
(** * The contrast pass after the inversion *)

Section ContrastAfterInversion.
Variable f : jsstring -> Color.
Local Open Scope R_scope.










End ContrastAfterInversion.




(* ================================================================== *)
(** * Inputs at the edges *)

(** A tag name with the Kelvin sign in place of [K] lower-cases to
    [blockquote] and is block-level; one with the dotted capital I in
    place of [I] lower-cases to a name outside the list. *)
Example kelvin_sign_in_a_tag_name :
  includes blockElements
    (toLowerCase (str "BLOC" ++ [8490%N] ++ str "QUOTE")) = true
  /\ includes blockElements (toLowerCase (str "L" ++ [304%N])) = false.
Proof. split; vm_compute; reflexivity. Qed.

(** A canvas of width and height 0 gives an image height that is not a
    number; the test of the loop fails at once and only the first image
    is placed. *)
Example canvas_without_width (name : jsstring) :
  PdfGenerator.generatePDF 1 210 10 0 0 name
  = Some [addImage (finite marginTop) (finite marginTop)
            (finite (210 - marginTop * 2)) notANumber;
          save (sanitizeFilename name ++ str ".pdf")].
Proof.
  unfold PdfGenerator.generatePDF, divide.
  destruct (Req_dec_T 0 0) as [_|N]; [|now elim N].
  destruct (Req_dec_T (0 * (210 - marginTop * 2)) 0) as [_|N];
    [reflexivity | exfalso; apply N; lra].
Qed.
